(** * TodoApp: the in-memory todo store and its HTML renderer

    A shallow embedding of the class [TodoApp] of [src/todo.py] and the
    properties of its operations: [add_todo], [toggle_todo], [delete_todo],
    [edit_todo], [clear_completed] and [get_todos_display]. *)

From Stdlib Require Import ZArith List String Ascii Decimal DecimalString Lia.
From Stdlib Require DecimalPos DecimalZ.
From stdpp Require Import base tactics option list.

Local Open Scope Z_scope.

(** ** Python strings

    A Python [str] is a sequence of Unicode code points.  String literals of
    the source are ASCII only where they reach the output, and are written
    with [lit]. *)

Abbreviation str := (list N).

Definition lit (s : string) : str := map N_of_ascii (list_ascii_of_string s).

(** The double quote character, U+0022. *)
Definition dq : str := [34%N].

(** [str.isspace] on one code point, the table of CPython's
    [_PyUnicode_IsWhitespace]. *)
Definition isspace (c : N) : bool :=
  ((9 <=? c) && (c <=? 13) || (28 <=? c) && (c <=? 32)
   || (c =? 133) || (c =? 160) || (c =? 5760)
   || (8192 <=? c) && (c <=? 8202)
   || (c =? 8232) || (c =? 8233) || (c =? 8239) || (c =? 8287)
   || (c =? 12288))%N.

(** [str.lstrip()], [str.rstrip()] and [str.strip()] without argument. *)
Fixpoint lstrip (s : str) : str :=
  match s with
  | [] => []
  | c :: s' => if isspace c then lstrip s' else s
  end.

Definition rstrip (s : str) : str := reverse (lstrip (reverse s)).

Definition strip (s : str) : str := rstrip (lstrip s).

(** Truth value of a string: [not text] holds for the empty string only. *)
Definition py_not (s : str) : bool :=
  match s with [] => true | _ :: _ => false end.

(** [s == ""] *)
Definition is_empty_str (s : str) : bool := bool_decide (s = []).

(** [str(n)] for an [int], as an f-string field [{n}] formats it. *)
Definition str_of_int (n : Z) : str := lit (NilZero.string_of_int (Z.to_int n)).

(** ** The data model *)

(** A todo is the dict built in [add_todo], with exactly these four keys. *)
Record todo : Type := mk_todo {
  id : Z;
  text : str;
  completed : bool;
  created_at : str
}.

(** The fields of a [TodoApp] object. *)
Record TodoApp : Type := mk_TodoApp {
  todos : list todo;
  next_id : Z
}.

(** [TodoApp.__init__] *)
Definition init : TodoApp := {| todos := []; next_id := 1 |}.

(** ** Methods as state transformers

    A method of [TodoApp] reads and updates [self] and returns a value. *)

Definition M (A : Type) : Type := TodoApp -> A * TodoApp.

#[export] Instance M_ret : MRet M := fun A a self => (a, self).

#[export] Instance M_bind : MBind M :=
  fun A B f m self => let '(a, self') := m self in f a self'.

Definition get_self : M TodoApp := fun self => (self, self).

(** [self.todos = l] *)
Definition set_todos (l : list todo) : M unit :=
  fun self => (tt, {| todos := l; next_id := next_id self |}).

(** [self.next_id = n] *)
Definition set_next_id (n : Z) : M unit :=
  fun self => (tt, {| todos := todos self; next_id := n |}).

(** ** The renderer, [get_todos_display] *)

Definition empty_state_html : str :=
  lit "
            <div style="
    ++ dq
    ++ lit "text-align: center; padding: 40px; color: #666;"
    ++ dq
    ++ lit ">
                <h3>No todos yet!</h3>
                <p>Add your first todo above to get started.</p>
            </div>
            ".

Definition style_html : str :=
  lit "
        <div style="
    ++ dq
    ++ lit "max-width: 600px; margin: 0 auto;"
    ++ dq
    ++ lit ">
            <style>
                .todo-item {
                    display: flex;
                    align-items: center;
                    padding: 12px;
                    margin: 8px 0;
                    background: white;
                    border: 1px solid #e1e5e9;
                    border-radius: 6px;
                    box-shadow: 0 1px 3px rgba(0,0,0,0.1);
                }
                .todo-completed {
                    background: #f8f9fa;
                    opacity: 0.7;
                }
                .todo-text {
                    flex: 1;
                    margin: 0 12px;
                    font-size: 16px;
                }
                .todo-completed .todo-text {
                    text-decoration: line-through;
                    color: #6c757d;
                }
                .todo-actions {
                    display: flex;
                    gap: 8px;
                }
                .btn-small {
                    padding: 4px 8px;
                    font-size: 12px;
                    border: none;
                    border-radius: 4px;
                    cursor: pointer;
                }
                .btn-toggle {
                    background: #28a745;
                    color: white;
                }
                .btn-toggle.completed {
                    background: #6c757d;
                }
                .btn-delete {
                    background: #dc3545;
                    color: white;
                }
                .stats {
                    text-align: center;
                    margin: 20px 0;
                    padding: 15px;
                    background: #f8f9fa;
                    border-radius: 6px;
                }
            </style>
        ".

(** The f-string of the summary counts. *)
Definition stats_html (total completed pending : Z) : str :=
  lit "
            <div class="
    ++ dq
    ++ lit "stats"
    ++ dq
    ++ lit ">
                <strong>Total: "
    ++ str_of_int total
    ++ lit "</strong> | 
                <span style="
    ++ dq
    ++ lit "color: #28a745;"
    ++ dq
    ++ lit ">Completed: "
    ++ str_of_int completed
    ++ lit "</span> | 
                <span style="
    ++ dq
    ++ lit "color: #ffc107;"
    ++ dq
    ++ lit ">Pending: "
    ++ str_of_int pending
    ++ lit "</span>
            </div>
        ".

(** One iteration of the loop over [self.todos]: the f-string appended for
    [todo].  [toggle_text] and [toggle_class] are computed and not used. *)
Definition row_html (todo : todo) : str :=
  let completed_class :=
    if completed todo then lit "todo-completed" else lit "" in
  let toggle_text := if negb (completed todo) then [10003%N] else [8630%N] in
  let toggle_class := if completed todo then lit "completed" else lit "" in
  lit "
            <div class="
    ++ dq
    ++ lit "todo-item "
    ++ completed_class
    ++ dq
    ++ lit ">
                <div class="
    ++ dq
    ++ lit "todo-text"
    ++ dq
    ++ lit ">"
    ++ text todo
    ++ lit "</div>
                <div class="
    ++ dq
    ++ lit "todo-actions"
    ++ dq
    ++ lit ">
                    <span style="
    ++ dq
    ++ lit "font-size: 12px; color: #6c757d;"
    ++ dq
    ++ lit ">"
    ++ created_at todo
    ++ lit "</span>
                </div>
            </div>
            ".

(** [sum(...)] of a sequence of ints. *)
Definition py_sum (l : list Z) : Z := fold_left Z.add l 0.

Definition get_todos_display : M str :=
  self ← get_self;
  match todos self with
  | [] => mret empty_state_html
  | _ :: _ =>
      let html := style_html in
      let total := Z.of_nat (length (todos self)) in
      let completed :=
        py_sum ((fun _ => 1) <$> filter (fun todo => completed todo) (todos self)) in
      let pending := total - completed in
      let html := html ++ stats_html total completed pending in
      let html := fold_left (fun html todo => html ++ row_html todo) (todos self) html in
      let html := html ++ lit "</div>" in
      mret html
  end.

(** ** The mutating methods *)

(** [add_todo].  [now] is the value of
    [datetime.now().strftime("%Y-%m-%d %H:%M:%S")] at the call, the only
    input the method takes from its environment. *)
Definition add_todo (text : str) (now : str) : M (str * str) :=
  if py_not text || is_empty_str (strip text) then
    display ← get_todos_display;
    mret (display, lit "Please enter a todo item")
  else
    self ← get_self;
    let todo :=
      {| id := next_id self;
         text := strip text;
         completed := false;
         created_at := now |} in
    set_todos (todos self ++ [todo]);;
    self ← get_self;
    set_next_id (next_id self + 1);;
    display ← get_todos_display;
    mret (display, lit "").

(** The loop of [toggle_todo]: the first todo whose id matches is updated
    in place, then [break]. *)
Fixpoint toggle_loop (todo_id : Z) (l : list todo) : list todo :=
  match l with
  | [] => []
  | todo :: rest =>
      if bool_decide (id todo = todo_id) then
        {| id := id todo;
           text := text todo;
           completed := negb (completed todo);
           created_at := created_at todo |} :: rest
      else todo :: toggle_loop todo_id rest
  end.

Definition toggle_todo (todo_id : Z) : M str :=
  self ← get_self;
  set_todos (toggle_loop todo_id (todos self));;
  get_todos_display.

Definition delete_todo (todo_id : Z) : M str :=
  self ← get_self;
  set_todos (filter (fun todo => id todo ≠ todo_id) (todos self));;
  get_todos_display.

(** The loop of [edit_todo], of the same shape as [toggle_loop]. *)
Fixpoint edit_loop (todo_id : Z) (new_text : str) (l : list todo) : list todo :=
  match l with
  | [] => []
  | todo :: rest =>
      if bool_decide (id todo = todo_id) then
        {| id := id todo;
           text := strip new_text;
           completed := completed todo;
           created_at := created_at todo |} :: rest
      else todo :: edit_loop todo_id new_text rest
  end.

Definition edit_todo (todo_id : Z) (new_text : str) : M str :=
  if py_not new_text || is_empty_str (strip new_text) then
    get_todos_display
  else
    self ← get_self;
    set_todos (edit_loop todo_id new_text (todos self));;
    get_todos_display.

Definition clear_completed : M str :=
  self ← get_self;
  set_todos (filter (fun todo => ¬ completed todo) (todos self));;
  get_todos_display.


(** ** Running a method *)

(** The object after the call, and the value the call returns. *)
Definition exec {A : Type} (m : M A) (self : TodoApp) : TodoApp := (m self).2.

Definition result {A : Type} (m : M A) (self : TodoApp) : A := (m self).1.

(** What [get_todos_display] shows for [self]. *)
Definition display (self : TodoApp) : str := result get_todos_display self.

(** The ids held by the store, in order. *)
Definition ids (self : TodoApp) : list Z := id <$> todos self.

(** ** Vocabulary of the specification *)

(** A text that is empty or made of whitespace only. *)
Definition whitespace_only (s : str) : bool := forallb isspace s.

(** [t] is [s] without its leading and trailing whitespace. *)
Definition is_trim_of (s t : str) : Prop :=
  ∃ l r : str,
    s = l ++ t ++ r ∧ forallb isspace l = true ∧ forallb isspace r = true ∧
    (∀ c, head t = Some c → isspace c = false) ∧
    (∀ c, last t = Some c → isspace c = false).

(** The operations of the store, with the arguments a caller supplies. *)
Inductive op : Type :=
  | Add (text now : str)
  | Toggle (todo_id : Z)
  | Edit (todo_id : Z) (new_text : str)
  | Delete (todo_id : Z)
  | ClearCompleted.

Definition apply_op (o : op) (self : TodoApp) : TodoApp :=
  match o with
  | Add text now => exec (add_todo text now) self
  | Toggle todo_id => exec (toggle_todo todo_id) self
  | Edit todo_id new_text => exec (edit_todo todo_id new_text) self
  | Delete todo_id => exec (delete_todo todo_id) self
  | ClearCompleted => exec clear_completed self
  end.

Definition run_ops (ops : list op) (self : TodoApp) : TodoApp :=
  fold_left (fun self o => apply_op o self) ops self.

(** The characters with a meaning in HTML markup: ampersand, angle brackets
    and the two quotes. *)
Definition markup_significant (c : N) : bool :=
  ((c =? 38) || (c =? 60) || (c =? 62) || (c =? 34) || (c =? 39))%N.

Definition markup_free (s : str) : bool :=
  forallb (fun c => negb (markup_significant c)) s.

(** Escaping as Python's [html.escape] does it. *)
Definition escape_char (c : N) : str :=
  if (c =? 38)%N then lit "&amp;"
  else if (c =? 60)%N then lit "&lt;"
  else if (c =? 62)%N then lit "&gt;"
  else if (c =? 34)%N then lit "&quot;"
  else if (c =? 39)%N then lit "&#x27;"
  else [c].

Definition html_escape (s : str) : str := concat (escape_char <$> s).

(** The record [todo] with its flag flipped, and with a new text. *)
Definition flipped (t : todo) : todo :=
  {| id := id t;
     text := text t;
     completed := negb (completed t);
     created_at := created_at t |}.

Definition retexted (new_text : str) (t : todo) : todo :=
  {| id := id t;
     text := new_text;
     completed := completed t;
     created_at := created_at t |}.

(** The store in which every text has been passed through [f]. *)
Definition with_texts (f : str -> str) (self : TodoApp) : TodoApp :=
  {| todos := (fun todo => retexted (f (text todo)) todo) <$> todos self;
     next_id := next_id self |}.

(** The rendering the specification asks for: the one of [get_todos_display]
    with every text escaped before it is inserted. *)
Definition escaped_display (self : TodoApp) : str :=
  display (with_texts html_escape self).

(** The parts of a row before and after the text. *)
Definition row_open (todo : todo) : str :=
  lit "
            <div class="
    ++ dq
    ++ lit "todo-item "
    ++ (if completed todo then lit "todo-completed" else lit "")
    ++ dq
    ++ lit ">
                <div class="
    ++ dq
    ++ lit "todo-text"
    ++ dq
    ++ lit ">".

Definition row_close (todo : todo) : str :=
  lit "</div>
                <div class="
    ++ dq
    ++ lit "todo-actions"
    ++ dq
    ++ lit ">
                    <span style="
    ++ dq
    ++ lit "font-size: 12px; color: #6c757d;"
    ++ dq
    ++ lit ">"
    ++ created_at todo
    ++ lit "</span>
                </div>
            </div>
            ".

(** The number of completed todos. *)
Definition completed_count (l : list todo) : Z :=
  Z.of_nat (length (filter (fun todo => completed todo) l)).

(** [i] is the first position of [l] holding a todo with id [todo_id], and
    [t] is the todo it holds. *)
Definition first_with_id (todo_id : Z) (l : list todo) (i : nat) (t : todo) : Prop :=
  l !! i = Some t ∧ id t = todo_id ∧
  ∀ j t', (j < i)%nat → l !! j = Some t' → id t' ≠ todo_id.

(** The shape shared by the loops of [toggle_todo] and [edit_todo]: apply
    [f] to the first todo with id [todo_id], then stop. *)
Fixpoint alter_first (f : todo -> todo) (todo_id : Z) (l : list todo) : list todo :=
  match l with
  | [] => []
  | t :: rest =>
      if bool_decide (id t = todo_id) then f t :: rest
      else t :: alter_first f todo_id rest
  end.

(** The invariant of the store: ids are pairwise distinct and below the
    counter. *)
Definition store_inv (self : TodoApp) : Prop :=
  NoDup (ids self) ∧ Forall (fun i => i < next_id self) (ids self).

(** A store with two records, [A] with id 1 and [B] with id 2. *)
Definition sample : TodoApp :=
  exec (add_todo (lit "B") (lit "2024-01-01 09:30:00"))
    (exec (add_todo (lit "A") (lit "2024-01-01 09:00:00")) init).

(** ** The event handlers

    The handlers act on the module-level object [todo_app], here the object
    the monad threads.  A [Textbox] hands over a [str].  The [Number]
    components are declared with [precision=0] and hand over an [int] or
    [None], so [int(todo_id)] is the number itself. *)

(** Truth value of a string in a condition: true unless it is empty. *)
Definition py_bool (s : str) : bool :=
  match s with [] => false | _ :: _ => true end.

Definition add_todo_handler (text : str) (now : str) : M (str * str * str) :=
  '(display, error) ← add_todo text now;
  mret (display, lit "",
        if py_bool error then error else lit "Todo added successfully!").

Definition toggle_todo_handler (todo_id : option Z) : M (str * str) :=
  match todo_id with
  | Some n =>
      display ← toggle_todo n;
      mret (display, lit "Todo status updated!")
  | None =>
      display ← get_todos_display;
      mret (display, lit "Please enter a valid todo ID")
  end.

Definition delete_todo_handler (todo_id : option Z) : M (str * str) :=
  match todo_id with
  | Some n =>
      display ← delete_todo n;
      mret (display, lit "Todo deleted!")
  | None =>
      display ← get_todos_display;
      mret (display, lit "Please enter a valid todo ID")
  end.

Definition edit_todo_handler (todo_id : option Z) (new_text : str)
    : M (str * str * str) :=
  match todo_id with
  | Some n =>
      if py_bool new_text then
        display ← edit_todo n new_text;
        mret (display, lit "", lit "Todo updated!")
      else
        display ← get_todos_display;
        mret (display, lit "", lit "Please enter valid todo ID and text")
  | None =>
      display ← get_todos_display;
      mret (display, lit "", lit "Please enter valid todo ID and text")
  end.

Definition clear_completed_handler : M (str * str) :=
  display ← clear_completed;
  mret (display, lit "Completed todos cleared!").

(** The [lambda] bound to the refresh button. *)
Definition refresh_handler : M (str * str) :=
  display ← get_todos_display;
  mret (display, lit "Refreshed!").

(** The events a user can fire, with the values the components hand over
    and, for an add, the time of the call. *)
Inductive event : Type :=
  | ClickAdd (text now : str)
  | ClickToggle (todo_id : option Z)
  | ClickDelete (todo_id : option Z)
  | ClickEdit (todo_id : option Z) (new_text : str)
  | ClickClear
  | ClickRefresh.

(** The object a handler leaves, and the HTML and the status line it hands
    to the page. *)
Definition handle (e : event) (self : TodoApp) : str * str * TodoApp :=
  match e with
  | ClickAdd text now =>
      let '((display, _, status), self') := add_todo_handler text now self in
      (display, status, self')
  | ClickToggle todo_id =>
      let '((display, status), self') := toggle_todo_handler todo_id self in
      (display, status, self')
  | ClickDelete todo_id =>
      let '((display, status), self') := delete_todo_handler todo_id self in
      (display, status, self')
  | ClickEdit todo_id new_text =>
      let '((display, _, status), self') :=
        edit_todo_handler todo_id new_text self in
      (display, status, self')
  | ClickClear =>
      let '((display, status), self') := clear_completed_handler self in
      (display, status, self')
  | ClickRefresh =>
      let '((display, status), self') := refresh_handler self in
      (display, status, self')
  end.

(** The object after a sequence of events. *)
Definition handle_all (es : list event) (self : TodoApp) : TodoApp :=
  fold_left (fun self e => (handle e self).2) es self.

(** What the renderer reads of a record: everything but its id. *)
Definition shown (t : todo) : str * bool * str :=
  (text t, completed t, created_at t).


(** Ids in strictly increasing order. *)
Fixpoint increasing (l : list Z) : Prop :=
  match l with
  | [] => True
  | i :: l' => Forall (fun j => i < j) l' ∧ increasing l'
  end.

(** ** Reading the rendered output

    What a reader of the output sees, defined on the string alone: where a
    piece of text occurs, and which numbers follow the labels of the
    summary. *)

(** What is left of [s] after its prefix [p], when [s] starts with [p]. *)
Fixpoint after_prefix (p s : str) : option str :=
  match p, s with
  | [], _ => Some s
  | a :: p', b :: s' => if (a =? b)%N then after_prefix p' s' else None
  | _ :: _, [] => None
  end.

(** What follows the first occurrence of [p] in [s]. *)
Fixpoint after (p s : str) : option str :=
  match after_prefix p s with
  | Some r => Some r
  | None => match s with [] => None | _ :: s' => after p s' end
  end.

(** [p] occurs in [s]. *)
Definition occurs (p s : str) : bool :=
  match after p s with Some _ => true | None => false end.

(** The ASCII digits. *)
Definition is_digit (c : N) : bool := ((48 <=? c) && (c <=? 57))%N.

(** The digits [s] starts with. *)
Fixpoint leading_digits (s : str) : str :=
  match s with
  | [] => []
  | c :: s' => if is_digit c then c :: leading_digits s' else []
  end.

(** The characters of [s] as a [string]. *)
Definition unlit (s : str) : string :=
  string_of_list_ascii (ascii_of_N <$> s).

(** The number written in decimal at the start of [s], if [s] starts with
    a digit. *)
Definition number_at (s : str) : option Z :=
  Z.of_uint <$> NilZero.uint_of_string (unlit (leading_digits s)).

(** The three numbers of the summary: the ones that follow the labels
    [Total: ], [Completed: ] and [Pending: ], in this order. *)
Definition summary_counts (html : str) : option (Z * Z * Z) :=
  r ← after (lit "Total: ") html;
  total ← number_at r;
  r ← after (lit "Completed: ") r;
  completed ← number_at r;
  r ← after (lit "Pending: ") r;
  pending ← number_at r;
  Some (total, completed, pending).

(** The element of a row that shows the text [x]. *)
Definition text_cell (x : str) : str :=
  lit "<div class=" ++ dq ++ lit "todo-text" ++ dq ++ lit ">" ++ x
    ++ lit "</div>".

(** The parts of the summary around its three labelled numbers. *)
Definition stats_before_total : str :=
  lit "
            <div class="
    ++ dq
    ++ lit "stats"
    ++ dq
    ++ lit ">
                <strong>".

Definition stats_before_completed : str :=
  lit "</strong> | 
                <span style="
    ++ dq
    ++ lit "color: #28a745;"
    ++ dq
    ++ lit ">".

Definition stats_before_pending : str :=
  lit "</span> | 
                <span style="
    ++ dq
    ++ lit "color: #ffc107;"
    ++ dq
    ++ lit ">".

Definition stats_end : str :=
  lit "</span>
            </div>
        ".

(** [p] does not occur in [pre ++ p] before its end. *)
Fixpoint no_early (p pre : str) : bool :=
  match pre with
  | [] => true
  | _ :: pre' =>
      match after_prefix p (pre ++ p) with
      | Some _ => false
      | None => no_early p pre'
      end
  end.

(** ** Stripping *)

Lemma lstrip_nil_iff (s : str) : lstrip s = [] ↔ whitespace_only s = true.
Proof.
  induction s as [|c s IH]; simpl; [done|].
  destruct (isspace c); simpl; [done|]. split; discriminate.
Qed.

Lemma lstrip_head (s : str) c : head (lstrip s) = Some c → isspace c = false.
Proof.
  induction s as [|a s IH]; simpl; [done|].
  destruct (isspace a) eqn:Ha; [done|]. simpl. congruence.
Qed.

Lemma lstrip_split (s : str) :
  ∃ l, s = l ++ lstrip s ∧ forallb isspace l = true.
Proof.
  induction s as [|a s (l & Hl & Hws)]; simpl.
  - by exists [].
  - destruct (isspace a) eqn:Ha.
    + exists (a :: l). simpl. rewrite Ha, Hws. by rewrite <- Hl.
    + by exists [].
Qed.

Lemma whitespace_only_reverse (s : str) :
  whitespace_only (reverse s) = whitespace_only s.
Proof.
  unfold whitespace_only. induction s as [|a s IH]; simpl; [done|].
  rewrite reverse_cons, forallb_app, IH. simpl.
  rewrite andb_true_r. apply andb_comm.
Qed.

Lemma strip_nil_iff (s : str) : strip s = [] ↔ whitespace_only s = true.
Proof.
  unfold strip, rstrip. split.
  - intros H. apply (f_equal reverse) in H. rewrite reverse_involutive in H.
    simpl in H. apply lstrip_nil_iff in H.
    rewrite whitespace_only_reverse in H.
    apply lstrip_nil_iff. destruct (lstrip s) as [|c t] eqn:E; [done|].
    assert (isspace c = false) as Hc by (apply (lstrip_head s); by rewrite E).
    simpl in H. by rewrite Hc in H.
  - intros H. apply lstrip_nil_iff in H. by rewrite H.
Qed.

(** The test of [add_todo] and [edit_todo] rejects exactly the texts that
    are empty or whitespace only. *)
Lemma blank_test (s : str) :
  py_not s || is_empty_str (strip s) = whitespace_only s.
Proof.
  destruct s as [|c s]; [done|]. cbn [py_not orb]. unfold is_empty_str.
  destruct (whitespace_only (c :: s)) eqn:E.
  - apply bool_decide_eq_true, strip_nil_iff, E.
  - apply bool_decide_eq_false. rewrite strip_nil_iff. by rewrite E.
Qed.

Lemma last_lstrip (s : str) c : last (lstrip s) = Some c → last s = Some c.
Proof.
  intros H. destruct (lstrip_split s) as (l & Hl & _).
  rewrite Hl, last_app. by rewrite H.
Qed.

Lemma strip_is_trim (s : str) : is_trim_of s (strip s).
Proof.
  destruct (lstrip_split s) as (l & Hl & Hlws).
  destruct (lstrip_split (reverse (lstrip s))) as (r & Hr & Hrws).
  exists l, (reverse r). unfold strip, rstrip. split_and!.
  - rewrite Hl at 1. f_equal. rewrite <- reverse_app, <- Hr.
    by rewrite reverse_involutive.
  - done.
  - by rewrite <- whitespace_only_reverse in Hrws.
  - intros c Hc. rewrite head_reverse in Hc. apply last_lstrip in Hc.
    rewrite last_reverse in Hc. by apply (lstrip_head s).
  - intros c Hc. rewrite last_reverse in Hc.
    by apply (lstrip_head (reverse (lstrip s))).
Qed.

(** ** What each method computes *)

Lemma get_todos_display_run (self : TodoApp) :
  get_todos_display self = (display self, self).
Proof.
  unfold display, result, get_todos_display, mbind, M_bind, get_self, mret, M_ret.
  by destruct (todos self).
Qed.

Ltac run_method :=
  unfold mbind, M_bind, mret, M_ret, get_self, set_todos, set_next_id;
  cbn beta iota zeta; rewrite ?get_todos_display_run; cbn [todos next_id].

Lemma add_todo_run (text now : str) (self : TodoApp) :
  add_todo text now self =
  if whitespace_only text then
    ((display self, lit "Please enter a todo item"), self)
  else
    let self' :=
      {| todos := todos self ++ [mk_todo (next_id self) (strip text) false now];
         next_id := next_id self + 1 |} in
    ((display self', lit ""), self').
Proof.
  unfold add_todo. rewrite blank_test.
  destruct (whitespace_only text); by run_method.
Qed.

Lemma toggle_todo_run (todo_id : Z) (self : TodoApp) :
  toggle_todo todo_id self =
  let self' :=
    {| todos := toggle_loop todo_id (todos self); next_id := next_id self |} in
  (display self', self').
Proof. unfold toggle_todo. by run_method. Qed.

Lemma delete_todo_run (todo_id : Z) (self : TodoApp) :
  delete_todo todo_id self =
  let self' :=
    {| todos := filter (fun todo => id todo ≠ todo_id) (todos self);
       next_id := next_id self |} in
  (display self', self').
Proof. unfold delete_todo. by run_method. Qed.

Lemma edit_todo_run (todo_id : Z) (new_text : str) (self : TodoApp) :
  edit_todo todo_id new_text self =
  if whitespace_only new_text then (display self, self)
  else
    let self' :=
      {| todos := edit_loop todo_id new_text (todos self);
         next_id := next_id self |} in
    (display self', self').
Proof.
  unfold edit_todo. rewrite blank_test.
  destruct (whitespace_only new_text); by run_method.
Qed.

Lemma clear_completed_run (self : TodoApp) :
  clear_completed self =
  let self' :=
    {| todos := filter (fun todo => ¬ completed todo) (todos self);
       next_id := next_id self |} in
  (display self', self').
Proof. unfold clear_completed. by run_method. Qed.

(** ** The loops with [break] *)

Lemma toggle_loop_alter (todo_id : Z) (l : list todo) :
  toggle_loop todo_id l = alter_first flipped todo_id l.
Proof. induction l as [|t l IH]; simpl; [done|]. by rewrite IH. Qed.

Lemma edit_loop_alter (todo_id : Z) (new_text : str) (l : list todo) :
  edit_loop todo_id new_text l = alter_first (retexted (strip new_text)) todo_id l.
Proof. induction l as [|t l IH]; simpl; [done|]. by rewrite IH. Qed.

Section alter_first.
Variable f : todo -> todo.
Hypothesis f_id : ∀ t, id (f t) = id t.

Lemma alter_first_absent (todo_id : Z) (l : list todo) :
  todo_id ∉ id <$> l → alter_first f todo_id l = l.
Proof.
  induction l as [|t l IH]; simpl; [done|]. intros H.
  apply not_elem_of_cons in H as [Hne Hl].
  rewrite bool_decide_eq_false_2 by done. by rewrite IH.
Qed.

Lemma alter_first_present (todo_id : Z) (l : list todo) :
  todo_id ∈ id <$> l →
  ∃ i t, first_with_id todo_id l i t ∧
         alter_first f todo_id l = <[i := f t]> l.
Proof.
  induction l as [|t l IH]; simpl; intros H.
  - by apply elem_of_nil in H.
  - case_bool_decide as Hid.
    + exists 0%nat, t. split; [|done]. split_and!; [done..|]. intros; lia.
    + apply elem_of_cons in H as [?|H]; [done|].
      destruct (IH H) as (i & t0 & (Hi & Ht0 & Hfirst) & Heq).
      exists (S i), t0. split; [|by rewrite Heq].
      split_and!; [done..|]. intros [|j] t' Hj Hl; simpl in Hl.
      * congruence.
      * apply (Hfirst j); [lia|done].
Qed.

Lemma alter_first_ids (todo_id : Z) (l : list todo) :
  id <$> alter_first f todo_id l = id <$> l.
Proof.
  induction l as [|t l IH]; [done|]. cbn [alter_first].
  case_bool_decide; rewrite !fmap_cons; [by rewrite f_id|by rewrite IH].
Qed.

Lemma alter_first_length (todo_id : Z) (l : list todo) :
  length (alter_first f todo_id l) = length l.
Proof.
  rewrite <- (length_fmap id), alter_first_ids. apply length_fmap.
Qed.
End alter_first.

Lemma flipped_involutive (t : todo) : flipped (flipped t) = t.
Proof. destruct t as [i x c d]. unfold flipped. simpl. by rewrite negb_involutive. Qed.

Lemma toggle_loop_involutive (todo_id : Z) (l : list todo) :
  toggle_loop todo_id (toggle_loop todo_id l) = l.
Proof.
  induction l as [|t l IH]; simpl; [done|].
  case_bool_decide as Hid; simpl.
  - rewrite bool_decide_eq_true_2 by done. simpl.
    rewrite negb_involutive. by destruct t.
  - rewrite bool_decide_eq_false_2 by done. by rewrite IH.
Qed.

(** With pairwise distinct ids, an id is held at one position only. *)
Lemma unique_position (l : list todo) (i j : nat) (t t' : todo) :
  NoDup (id <$> l) → l !! i = Some t → l !! j = Some t' → id t = id t' → i = j.
Proof.
  intros Hnd Hi Hj Heq. apply (NoDup_lookup _ i j (id t) Hnd).
  - by rewrite list_lookup_fmap, Hi.
  - rewrite list_lookup_fmap, Hj. simpl. by rewrite Heq.
Qed.

(** ** Filtering by id *)

Lemma filter_id_absent (todo_id : Z) (l : list todo) :
  todo_id ∉ id <$> l → filter (fun todo => id todo ≠ todo_id) l = l.
Proof.
  induction l as [|t l IH]; simpl; [done|]. intros H.
  apply not_elem_of_cons in H as [Hne Hl].
  rewrite filter_cons_True by done. by rewrite IH.
Qed.

Lemma filter_id_present (todo_id : Z) (l : list todo) :
  NoDup (id <$> l) → todo_id ∈ id <$> l →
  ∃ l1 t l2, l = l1 ++ t :: l2 ∧ id t = todo_id ∧
             filter (fun todo => id todo ≠ todo_id) l = l1 ++ l2.
Proof.
  intros Hnd Hin. apply list_elem_of_fmap in Hin as (t & Ht & Hin).
  apply list_elem_of_split in Hin as (l1 & l2 & ->).
  exists l1, t, l2. split_and!; [done..|].
  rewrite fmap_app, fmap_cons in Hnd.
  apply NoDup_app in Hnd as (_ & Hl1 & Hnd).
  apply NoDup_cons in Hnd as [Hl2 _].
  rewrite filter_app, filter_cons_False by (intros Hc; by apply Hc).
  rewrite !filter_id_absent; [done|by rewrite Ht|].
  intros Hc. apply (Hl1 _ Hc). rewrite Ht. left.
Qed.

(** ** The renderer *)

Lemma row_html_split (t : todo) :
  row_html t = row_open t ++ text t ++ row_close t.
Proof. unfold row_html, row_open, row_close. by rewrite <- !app_assoc. Qed.

Lemma rows_fold (l : list todo) (html : str) :
  fold_left (fun html todo => html ++ row_html todo) l html
  = html ++ concat (row_html <$> l).
Proof.
  revert html. induction l as [|t l IH]; intros html.
  - by rewrite app_nil_r.
  - cbn [fold_left]. rewrite IH, fmap_cons. cbn [concat]. by rewrite <- app_assoc.
Qed.

Lemma py_sum_ones {A : Type} (l : list A) (acc : Z) :
  fold_left Z.add ((fun _ => 1) <$> l) acc = acc + Z.of_nat (length l).
Proof.
  revert acc. induction l as [|a l IH]; intros acc.
  - simpl. lia.
  - rewrite fmap_cons. cbn [fold_left length]. rewrite IH. lia.
Qed.

Lemma display_empty (self : TodoApp) :
  todos self = [] → display self = empty_state_html.
Proof.
  intros H. unfold display, result, get_todos_display, mbind, M_bind, get_self.
  by rewrite H.
Qed.

Lemma display_nonempty (self : TodoApp) :
  todos self ≠ [] →
  display self
  = style_html
    ++ stats_html (Z.of_nat (length (todos self)))
         (completed_count (todos self))
         (Z.of_nat (length (todos self)) - completed_count (todos self))
    ++ concat (row_html <$> todos self)
    ++ lit "</div>".
Proof.
  intros H. unfold display, result, get_todos_display, mbind, M_bind, get_self.
  destruct (todos self) as [|t l] eqn:E; [done|].
  cbn beta iota zeta. unfold mret, M_ret. cbn [fst].
  rewrite rows_fold. unfold py_sum, completed_count.
  rewrite py_sum_ones, Z.add_0_l. by rewrite <- !app_assoc.
Qed.

Lemma completed_count_bounds (l : list todo) :
  0 ≤ completed_count l ≤ Z.of_nat (length l).
Proof.
  unfold completed_count.
  pose proof (length_filter (fun todo : todo => completed todo) l). lia.
Qed.

(** ** The invariant of the store *)

Lemma store_inv_init : store_inv init.
Proof. split; [apply NoDup_nil_2|apply Forall_nil_2]. Qed.

Lemma ids_filter_sublist (P : todo -> Prop) `{!∀ t, Decision (P t)} (l : list todo) :
  (id <$> filter P l) `sublist_of` (id <$> l).
Proof.
  induction l as [|t l IH]; [done|]. rewrite filter_cons, fmap_cons.
  destruct (decide (P t)).
  - rewrite fmap_cons. by apply sublist_skip.
  - by apply sublist_cons.
Qed.

Lemma store_inv_filter (P : todo -> Prop) `{!∀ t, Decision (P t)} (self : TodoApp) :
  store_inv self →
  store_inv {| todos := filter P (todos self); next_id := next_id self |}.
Proof.
  intros [Hnd Hlt]. unfold store_inv, ids in *. cbn [todos next_id].
  pose proof (ids_filter_sublist P (todos self)) as Hsub. split.
  - by eapply sublist_NoDup.
  - rewrite Forall_forall in Hlt |- *. intros i Hi.
    apply Hlt. by eapply elem_of_sublist.
Qed.

Lemma store_inv_alter_first (f : todo -> todo) (todo_id : Z) (self : TodoApp) :
  (∀ t, id (f t) = id t) →
  store_inv self →
  store_inv {| todos := alter_first f todo_id (todos self);
               next_id := next_id self |}.
Proof.
  intros Hf. unfold store_inv, ids. cbn [todos next_id].
  by rewrite alter_first_ids.
Qed.

Lemma store_inv_append (t : todo) (self : TodoApp) :
  id t = next_id self →
  store_inv self →
  store_inv {| todos := todos self ++ [t]; next_id := next_id self + 1 |}.
Proof.
  intros Ht [Hnd Hlt]. unfold store_inv, ids in *. cbn [todos next_id].
  rewrite fmap_app. cbn [fmap list_fmap]. rewrite Forall_forall in Hlt. split.
  - apply NoDup_app. split_and!; [done| |apply NoDup_singleton].
    intros i Hi Hin. apply list_elem_of_singleton in Hin.
    apply Hlt in Hi. lia.
  - apply Forall_app. split.
    + apply Forall_forall. intros i Hi. apply Hlt in Hi. lia.
    + apply Forall_singleton. lia.
Qed.

Lemma apply_op_inv (o : op) (self : TodoApp) :
  store_inv self → store_inv (apply_op o self).
Proof.
  intros Hinv. destruct o as [text now|todo_id|todo_id new_text|todo_id|];
    unfold apply_op, exec.
  - rewrite add_todo_run. destruct (whitespace_only text); [done|].
    by apply store_inv_append.
  - rewrite toggle_todo_run, toggle_loop_alter. by apply store_inv_alter_first.
  - rewrite edit_todo_run. destruct (whitespace_only new_text); [done|].
    cbn [snd]. rewrite edit_loop_alter. by apply store_inv_alter_first.
  - rewrite delete_todo_run. by apply store_inv_filter.
  - rewrite clear_completed_run. by apply store_inv_filter.
Qed.

Lemma apply_op_next_id (o : op) (self : TodoApp) :
  next_id self ≤ next_id (apply_op o self).
Proof.
  destruct o as [text now|todo_id|todo_id new_text|todo_id|];
    unfold apply_op, exec.
  - rewrite add_todo_run. destruct (whitespace_only text); cbn; lia.
  - by rewrite toggle_todo_run.
  - rewrite edit_todo_run. by destruct (whitespace_only new_text).
  - by rewrite delete_todo_run.
  - by rewrite clear_completed_run.
Qed.

Lemma run_ops_snoc (ops : list op) (o : op) (self : TodoApp) :
  run_ops (ops ++ [o]) self = apply_op o (run_ops ops self).
Proof. unfold run_ops. by rewrite fold_left_app. Qed.

Lemma run_ops_inv (ops : list op) (self : TodoApp) :
  store_inv self → store_inv (run_ops ops self).
Proof.
  revert self. induction ops as [|o ops IH]; intros self Hinv; [done|].
  apply IH. by apply apply_op_inv.
Qed.

(** ** The store *)

(** C1. Along every sequence of operations from the initial state the ids
    of the records of the store are pairwise distinct; no operation makes
    the counter [next_id] decrease; and an [add_todo] that is not rejected
    appends a record carrying the current value of the counter, which it
    then increments, while a rejected one changes nothing. *)
Theorem ids_unique_counter_monotone (ops : list op) (o : op) (text now : str) :
  let self := run_ops ops init in
  NoDup (ids self) ∧
  next_id self ≤ next_id (apply_op o self) ∧
  let self' := apply_op (Add text now) self in
  if whitespace_only text then self' = self
  else ∃ t, todos self' = todos self ++ [t] ∧ id t = next_id self ∧
            next_id self' = next_id self + 1.
Proof.
  intros self. split_and!.
  - apply (run_ops_inv ops init store_inv_init).
  - apply apply_op_next_id.
  - cbn zeta. unfold apply_op, exec. rewrite add_todo_run.
    destruct (whitespace_only text); [done|]. by eexists.
Qed.

(** C2. [add_todo] on an empty or whitespace-only text returns the message
    [Please enter a todo item] and leaves the object as it was: same
    records, same size, same counter.  On any other text it appends exactly
    one record at the end, whose text is the input without its leading and
    trailing whitespace, whose id is the current value of the counter and
    whose flag is false; the size grows by one, the counter by one, and the
    records that were there stay where and what they were. *)
Theorem add_todo_spec (self : TodoApp) (text now : str) :
  let r := result (add_todo text now) self in
  let self' := exec (add_todo text now) self in
  if whitespace_only text then
    r.2 = lit "Please enter a todo item" ∧ r.2 ≠ [] ∧ self' = self
  else
    todos self' =
      todos self ++
        [{| id := next_id self; text := strip text;
            completed := false; created_at := now |}] ∧
    is_trim_of text (strip text) ∧ strip text ≠ [] ∧
    length (todos self') = S (length (todos self)) ∧
    next_id self' = next_id self + 1 ∧
    (∀ i t, todos self !! i = Some t → todos self' !! i = Some t) ∧
    r.2 = [].
Proof.
  cbn zeta. unfold result, exec. rewrite add_todo_run.
  destruct (whitespace_only text) eqn:E; cbn [fst snd todos next_id].
  - done.
  - split_and!; try done.
    + apply strip_is_trim.
    + rewrite strip_nil_iff. by rewrite E.
    + rewrite length_app. simpl. lia.
    + intros i t Hi. by apply lookup_app_l_Some.
Qed.

(** C4. When the store holds a record with id [todo_id], [toggle_todo]
    negates the flag of one record, the first one with that id, and leaves
    the id, text and creation time of that record, every other record, the
    order and the counter as they were; when the ids of the store are
    pairwise distinct no other record has that id.  Toggling twice in
    succession gives back the object the first call started from. *)
Theorem toggle_todo_flips_and_is_involutive (self : TodoApp) (todo_id : Z) :
  todo_id ∈ ids self →
  let self' := exec (toggle_todo todo_id) self in
  (∃ i t,
     first_with_id todo_id (todos self) i t ∧
     todos self' =
       <[i := {| id := id t; text := text t;
                 completed := negb (completed t);
                 created_at := created_at t |}]> (todos self) ∧
     (NoDup (ids self) →
      ∀ j t', todos self !! j = Some t' → id t' = todo_id → j = i)) ∧
  next_id self' = next_id self ∧
  exec (toggle_todo todo_id) self' = self.
Proof.
  intros Hin. cbn zeta. unfold exec. rewrite !toggle_todo_run.
  cbn [snd todos next_id]. split_and!.
  - rewrite toggle_loop_alter.
    destruct (alter_first_present flipped todo_id (todos self) Hin)
      as (i & t & Hfirst & Heq).
    exists i, t. split_and!; [done..|].
    intros Hnd j t' Hj Hid. destruct Hfirst as (Hi & Ht & _).
    apply (unique_position (todos self) j i t' t Hnd Hj Hi). congruence.
  - done.
  - rewrite toggle_loop_involutive. by destruct self.
Qed.

(** C5. When the store holds no record with id [todo_id], each of
    [toggle_todo], [edit_todo] and [delete_todo] returns normally, with the
    rendering of the unchanged object, and leaves the object as it was. *)
Theorem absent_id_is_noop (self : TodoApp) (todo_id : Z) (new_text : str) :
  todo_id ∉ ids self →
  toggle_todo todo_id self = (display self, self) ∧
  edit_todo todo_id new_text self = (display self, self) ∧
  delete_todo todo_id self = (display self, self).
Proof.
  intros Hnin. rewrite toggle_todo_run, edit_todo_run, delete_todo_run.
  cbn zeta. rewrite toggle_loop_alter, edit_loop_alter.
  rewrite !alter_first_absent, filter_id_absent by done.
  destruct self; cbn [todos next_id]. by destruct (whitespace_only new_text).
Qed.

(** C6. When the ids of the store are pairwise distinct and one record has
    id [todo_id], [delete_todo] removes that record and no other: the size
    decreases by one and the records before it and after it stay, in their
    order and with their fields.  When no record has that id,
    [delete_todo] changes nothing. *)
Theorem delete_todo_removes_matching (self : TodoApp) (todo_id : Z) :
  let self' := exec (delete_todo todo_id) self in
  (NoDup (ids self) → todo_id ∈ ids self →
   ∃ l1 t l2,
     todos self = l1 ++ t :: l2 ∧ id t = todo_id ∧
     todos self' = l1 ++ l2 ∧
     S (length (todos self')) = length (todos self) ∧
     next_id self' = next_id self) ∧
  (todo_id ∉ ids self → self' = self).
Proof.
  cbn zeta. unfold exec. rewrite delete_todo_run. cbn [snd todos next_id].
  split.
  - intros Hnd Hin.
    destruct (filter_id_present todo_id (todos self) Hnd Hin)
      as (l1 & t & l2 & Hl & Ht & Hf).
    exists l1, t, l2. rewrite Hf, Hl. split_and!; try done.
    rewrite !length_app. simpl. lia.
  - intros Hnin. rewrite filter_id_absent by done. by destruct self.
Qed.

(** C7. [edit_todo] with an empty or whitespace-only text changes nothing.
    With any other text and an id the store holds, it replaces the text of
    one record, the first one with that id, by the stripped text, which is
    not empty, and leaves the id, flag and creation time of that record,
    every other record, the size, the order and the counter as they
    were. *)
Theorem edit_todo_changes_only_text (self : TodoApp) (todo_id : Z) (new_text : str) :
  let self' := exec (edit_todo todo_id new_text) self in
  (whitespace_only new_text = true → self' = self) ∧
  (whitespace_only new_text = false → todo_id ∈ ids self →
   ∃ i t,
     first_with_id todo_id (todos self) i t ∧
     todos self' =
       <[i := {| id := id t; text := strip new_text;
                 completed := completed t;
                 created_at := created_at t |}]> (todos self) ∧
     strip new_text ≠ [] ∧
     length (todos self') = length (todos self) ∧
     next_id self' = next_id self).
Proof.
  cbn zeta. unfold exec. rewrite edit_todo_run. split; intros Hws.
  - by rewrite Hws.
  - intros Hin. rewrite Hws. cbn [snd todos next_id].
    rewrite edit_loop_alter.
    destruct (alter_first_present (retexted (strip new_text)) todo_id
                (todos self) Hin) as (i & t & Hfirst & Heq).
    exists i, t. split_and!; try done.
    + rewrite strip_nil_iff. by rewrite Hws.
    + by apply alter_first_length.
Qed.

(** C8. [clear_completed] keeps exactly the records whose flag is false:
    a record is in the store afterwards if and only if it was there with
    its flag false, the records kept are in the order they had, the number
    removed is the number of completed records, and the counter is as it
    was.  A second call changes nothing more. *)
Theorem clear_completed_removes_completed (self : TodoApp) :
  let self' := exec clear_completed self in
  (∀ t, t ∈ todos self' ↔ t ∈ todos self ∧ completed t = false) ∧
  todos self' `sublist_of` todos self ∧
  length (todos self) =
    (length (todos self')
     + length (filter (fun t => completed t = true) (todos self)))%nat ∧
  next_id self' = next_id self ∧
  exec clear_completed self' = self'.
Proof.
  cbn zeta. unfold exec. rewrite !clear_completed_run.
  cbn [snd todos next_id]. split_and!.
  - intros t. rewrite list_elem_of_filter, <- Is_true_false. tauto.
  - apply sublist_filter.
  - induction (todos self) as [|t l IH]; [done|].
    destruct (completed t) eqn:E.
    + rewrite filter_cons_False by (rewrite E; intros H; by apply H).
      rewrite filter_cons_True by done. simpl. lia.
    + rewrite filter_cons_True by (rewrite E; intros []).
      rewrite filter_cons_False by (by rewrite E). simpl. lia.
  - done.
  - f_equal. by apply list_filter_filter_l.
Qed.

(** ** What a reader finds in the output *)

Lemma after_prefix_app (p r : str) : after_prefix p (p ++ r) = Some r.
Proof.
  induction p as [|a p IH]; [by destruct r|]. cbn [app after_prefix].
  by rewrite N.eqb_refl.
Qed.

Lemma after_prefix_None_app (p x r : str) :
  after_prefix p x = None → (length p ≤ length x)%nat →
  after_prefix p (x ++ r) = None.
Proof.
  revert x. induction p as [|a p IH]; intros [|b x]; cbn; try done.
  - lia.
  - destruct (N.eqb a b); [|done]. intros H Hlen. apply IH; [done|lia].
Qed.

Lemma after_cons (p : str) (c : N) (s : str) :
  after p (c :: s)
  = match after_prefix p (c :: s) with Some r => Some r | None => after p s end.
Proof. done. Qed.

Lemma after_at_prefix (p r : str) : after p (p ++ r) = Some r.
Proof.
  destruct (p ++ r) as [|c s] eqn:E.
  - apply app_eq_nil in E as [-> ->]. done.
  - rewrite after_cons, <- E. by rewrite after_prefix_app.
Qed.

(** Where [p] first occurs, [after] cuts. *)
Lemma after_first (p pre r : str) :
  no_early p pre = true → after p (pre ++ p ++ r) = Some r.
Proof.
  induction pre as [|c pre IH]; [intros _; apply (after_at_prefix p r)|].
  cbn [no_early]. destruct (after_prefix p ((c :: pre) ++ p)) eqn:E; [done|].
  intros H. cbn [app]. rewrite after_cons.
  change (c :: pre ++ p ++ r) with ((c :: pre) ++ p ++ r).
  rewrite app_assoc, after_prefix_None_app; [|done|].
  - by apply IH.
  - rewrite length_app. lia.
Qed.

Lemma occurs_app (p pre post : str) : occurs p (pre ++ p ++ post) = true.
Proof.
  unfold occurs. induction pre as [|c pre IH].
  - cbn [app]. by rewrite after_at_prefix.
  - cbn [app]. rewrite after_cons. by destruct (after_prefix p _).
Qed.

Lemma after_skip_digits (c : N) (p ds s : str) :
  is_digit c = false → forallb is_digit ds = true →
  after (c :: p) (ds ++ s) = after (c :: p) s.
Proof.
  intros Hc. induction ds as [|d ds IH]; [done|]. cbn [forallb].
  intros [Hd Hds]%andb_true_iff. cbn [app]. rewrite after_cons.
  cbn [after_prefix]. destruct (N.eqb_spec c d) as [->|_]; [congruence|].
  by apply IH.
Qed.

Lemma leading_digits_app (ds r : str) :
  forallb is_digit ds = true →
  (∀ c, head r = Some c → is_digit c = false) →
  leading_digits (ds ++ r) = ds.
Proof.
  intros Hds Hr. induction ds as [|d ds IH].
  - destruct r as [|c r]; [done|]. cbn. by rewrite (Hr c eq_refl).
  - cbn [forallb] in Hds. apply andb_true_iff in Hds as [Hd Hds].
    cbn [app leading_digits]. by rewrite Hd, IH.
Qed.

Lemma unlit_lit (s : string) : unlit (lit s) = s.
Proof.
  unfold unlit, lit. rewrite <- list_fmap_compose.
  rewrite <- (string_of_list_ascii_of_string s) at 2. f_equal.
  induction (list_ascii_of_string s) as [|a l IH]; [done|].
  rewrite fmap_cons, IH. f_equal. apply ascii_N_embedding.
Qed.

Lemma uint_digits (d : uint) :
  forallb is_digit (lit (NilEmpty.string_of_uint d)) = true.
Proof. induction d; cbn; try done; by rewrite ?IHd. Qed.

(** A number that is not negative is written in digits, and reading them
    gives the number back. *)
Lemma str_of_int_read (n : Z) :
  0 ≤ n →
  forallb is_digit (str_of_int n) = true ∧
  Z.of_uint <$> NilZero.uint_of_string (unlit (str_of_int n)) = Some n.
Proof.
  intros Hn. unfold str_of_int. rewrite unlit_lit.
  assert (∃ d, Z.to_int n = Decimal.Pos d ∧ d ≠ Nil) as (d & Hd & Hnil).
  { destruct n as [|p|p]; [by eexists| |lia].
    eexists. split; [done|]. apply DecimalPos.Unsigned.to_uint_nonnil. }
  pose proof (DecimalZ.of_to n) as Hz. rewrite Hd in Hz |- *.
  cbn [NilZero.string_of_int Z.of_int] in *. split.
  - unfold NilZero.string_of_uint. destruct d; try done; apply uint_digits.
  - by rewrite NilZero.usu, <- Hz.
Qed.

Lemma number_at_str_of_int (n : Z) (r : str) :
  0 ≤ n → (∀ c, head r = Some c → is_digit c = false) →
  number_at (str_of_int n ++ r) = Some n.
Proof.
  intros Hn Hr. destruct (str_of_int_read n Hn) as [Hd Hread].
  unfold number_at. by rewrite leading_digits_app.
Qed.

Lemma stats_html_labels (total completed pending : Z) :
  stats_html total completed pending
  = stats_before_total ++ lit "Total: " ++ str_of_int total
    ++ stats_before_completed ++ lit "Completed: " ++ str_of_int completed
    ++ stats_before_pending ++ lit "Pending: " ++ str_of_int pending
    ++ stats_end.
Proof.
  unfold stats_html, stats_before_total, stats_before_completed,
    stats_before_pending, stats_end.
  rewrite <- !app_assoc. reflexivity.
Qed.

Lemma stats_pieces_heads (x : str) (c : N) :
  (head (stats_before_completed ++ x) = Some c → is_digit c = false) ∧
  (head (stats_before_pending ++ x) = Some c → is_digit c = false) ∧
  (head (stats_end ++ x) = Some c → is_digit c = false).
Proof.
  split_and!; intros Hc; change (Some 60%N = Some c) in Hc;
    by injection Hc as <-.
Qed.

(** The summary counts of an output that holds the summary of [total],
    [completed] and [pending] after a beginning without the label
    [Total: ]. *)
Lemma summary_counts_stats (pre post : str) (total completed pending : Z) :
  0 ≤ total → 0 ≤ completed → 0 ≤ pending →
  no_early (lit "Total: ") (pre ++ stats_before_total) = true →
  summary_counts (pre ++ stats_html total completed pending ++ post)
  = Some (total, completed, pending).
Proof.
  intros Ht Hc Hp Hpre. rewrite stats_html_labels.
  unfold summary_counts. rewrite <- !app_assoc.
  rewrite (app_assoc pre stats_before_total), after_first by done.
  cbn [mbind option_bind].
  rewrite number_at_str_of_int;
    [|done|intros c; apply stats_pieces_heads].
  cbn [mbind option_bind].
  change (lit "Completed: ") with (67%N :: lit "ompleted: ") at 1.
  rewrite after_skip_digits; [|done|by apply str_of_int_read].
  change (67%N :: lit "ompleted: ") with (lit "Completed: ").
  rewrite after_first by (by vm_compute).
  cbn [mbind option_bind].
  rewrite number_at_str_of_int;
    [|done|intros c; apply stats_pieces_heads].
  cbn [mbind option_bind].
  change (lit "Pending: ") with (80%N :: lit "ending: ") at 1.
  rewrite after_skip_digits; [|done|by apply str_of_int_read].
  change (80%N :: lit "ending: ") with (lit "Pending: ").
  rewrite after_first by (by vm_compute).
  cbn [mbind option_bind].
  rewrite number_at_str_of_int;
    [done|done|intros c; apply stats_pieces_heads].
Qed.

Lemma summary_counts_display (self : TodoApp) :
  todos self ≠ [] →
  summary_counts (display self)
  = Some (Z.of_nat (length (todos self)), completed_count (todos self),
          Z.of_nat (length (todos self)) - completed_count (todos self)).
Proof.
  intros H. rewrite display_nonempty by done.
  pose proof (completed_count_bounds (todos self)).
  apply summary_counts_stats; [lia..|by vm_compute].
Qed.

Lemma after_prefix_Some (p s r : str) : after_prefix p s = Some r → s = p ++ r.
Proof.
  revert s. induction p as [|a p IH]; intros [|b s]; cbn; try congruence.
  destruct (N.eqb_spec a b) as [->|_]; [|done].
  intros H. by rewrite (IH s H).
Qed.

Lemma occurs_split (p s : str) :
  occurs p s = true ↔ ∃ a b, s = a ++ p ++ b.
Proof.
  split; [|intros (a & b & ->); apply occurs_app].
  unfold occurs. induction s as [|c s IH].
  - cbn. destruct (after_prefix p []) as [r|] eqn:E; [|done].
    intros _. exists [], r. cbn [app]. by apply after_prefix_Some.
  - rewrite after_cons. destruct (after_prefix p (c :: s)) as [r|] eqn:E.
    + intros _. exists [], r. cbn [app]. by apply after_prefix_Some.
    + intros H. destruct (IH H) as (a & b & ->). by exists (c :: a), b.
Qed.

Lemma row_html_cell (t : todo) :
  ∃ a b, row_html t = a ++ text_cell (text t) ++ b.
Proof.
  exists (take (length (row_open t) - 23) (row_open t)), (drop 6 (row_close t)).
  rewrite row_html_split. unfold text_cell, row_open, row_close.
  destruct (completed t); rewrite <- !app_assoc; reflexivity.
Qed.

(** The text of every record is in the output as it is, in its cell. *)
Lemma display_holds_text (self : TodoApp) (t : todo) :
  t ∈ todos self → occurs (text_cell (text t)) (display self) = true.
Proof.
  intros Hin. rewrite display_nonempty by (intros E; rewrite E in Hin; inv Hin).
  apply list_elem_of_split in Hin as (l1 & l2 & ->).
  destruct (row_html_cell t) as (a & b & Hrow).
  rewrite fmap_app, fmap_cons, concat_app. cbn [concat]. rewrite Hrow.
  apply occurs_split.
  eexists (style_html ++ stats_html _ _ _ ++ concat (row_html <$> l1) ++ a),
    (b ++ concat (row_html <$> l2) ++ lit "</div>").
  by rewrite <- !app_assoc.
Qed.

(** ** The rendered output *)

(** C9. For a store without records [get_todos_display] returns the
    empty-state text, which says [No todos yet!] and shows no summary.
    For any other store the numbers a reader finds in the output after the
    labels [Total: ], [Completed: ] and [Pending: ] are [total], the
    number of records, [completed], the number of records whose flag is
    true, and [pending = total - completed], so that
    [total = completed + pending]; the output is the style block, this
    summary, one row per record and the closing tag. *)
Theorem display_empty_state_and_counts (self : TodoApp) :
  match todos self with
  | [] =>
      display self = empty_state_html ∧
      occurs (lit "No todos yet!") (display self) = true ∧
      summary_counts (display self) = None
  | _ :: _ =>
      ∃ total completed pending : Z,
        total = Z.of_nat (length (todos self)) ∧
        completed = completed_count (todos self) ∧
        pending = total - completed ∧
        total = completed + pending ∧
        0 ≤ completed ∧ 0 ≤ pending ∧
        summary_counts (display self) = Some (total, completed, pending) ∧
        display self
        = style_html ++ stats_html total completed pending
          ++ concat (row_html <$> todos self) ++ lit "</div>"
  end.
Proof.
  destruct (todos self) as [|t l] eqn:E.
  - rewrite (display_empty self E). by vm_compute.
  - pose proof (completed_count_bounds (t :: l)) as Hb.
    eexists _, _, _. split_and!; [done..|lia|lia|lia| |].
    + rewrite <- E. apply summary_counts_display. by rewrite E.
    + rewrite <- E. apply display_nonempty. by rewrite E.
Qed.

(** C10. Each mutating method returns the rendering of the object as the
    method leaves it: [toggle_todo], [delete_todo], [edit_todo] and
    [clear_completed] return that string, and [add_todo] returns it as the
    first component of a pair whose second component is the empty string
    when the text was accepted and the message [Please enter a todo item]
    when it was rejected. *)
Theorem mutators_return_display
    (self : TodoApp) (todo_id : Z) (text now new_text : str) :
  result (toggle_todo todo_id) self
    = display (exec (toggle_todo todo_id) self) ∧
  result (delete_todo todo_id) self
    = display (exec (delete_todo todo_id) self) ∧
  result (edit_todo todo_id new_text) self
    = display (exec (edit_todo todo_id new_text) self) ∧
  result clear_completed self = display (exec clear_completed self) ∧
  (result (add_todo text now) self).1
    = display (exec (add_todo text now) self) ∧
  (result (add_todo text now) self).2
    = if whitespace_only text then lit "Please enter a todo item" else lit "".
Proof.
  unfold result, exec.
  rewrite toggle_todo_run, delete_todo_run, edit_todo_run,
    clear_completed_run, add_todo_run.
  destruct (whitespace_only new_text), (whitespace_only text); done.
Qed.

(** ** Escaping *)

Lemma escape_char_length (c : N) :
  (1 ≤ length (escape_char c))%nat ∧
  (length (escape_char c) = 1%nat → markup_significant c = false).
Proof.
  unfold escape_char, markup_significant.
  repeat (destruct (N.eqb c _); [vm_compute; split; [lia|discriminate]|]).
  by split.
Qed.

Lemma escape_char_free (c : N) :
  markup_significant c = false → escape_char c = [c].
Proof.
  unfold escape_char, markup_significant.
  by repeat (destruct (N.eqb c _); [done|]).
Qed.

Lemma html_escape_free (s : str) : markup_free s = true → html_escape s = s.
Proof.
  unfold html_escape, markup_free. induction s as [|c s IH]; [done|].
  cbn [forallb]. intros [Hc Hs]%andb_true_iff. apply negb_true_iff in Hc.
  rewrite fmap_cons. cbn [concat]. by rewrite escape_char_free, IH.
Qed.

Lemma html_escape_length (s : str) :
  (length s ≤ length (html_escape s))%nat ∧
  (length (html_escape s) = length s → markup_free s = true).
Proof.
  unfold html_escape, markup_free. induction s as [|c s [IH1 IH2]]; [done|].
  rewrite fmap_cons. cbn [concat forallb length]. rewrite length_app.
  destruct (escape_char_length c) as [Hc1 Hc2]. split; [lia|].
  intros H. rewrite Hc2, IH2 by lia. done.
Qed.

Lemma row_html_retexted_length (x : str) (t : todo) :
  length (row_html (retexted x t))
  = (length (row_open t) + length x + length (row_close t))%nat.
Proof. rewrite row_html_split, !length_app. unfold row_open, row_close. simpl. lia. Qed.

Lemma rows_escaped_length (l : list todo) :
  let l' := (fun todo => retexted (html_escape (text todo)) todo) <$> l in
  (length (concat (row_html <$> l)) ≤ length (concat (row_html <$> l')))%nat ∧
  (length (concat (row_html <$> l')) = length (concat (row_html <$> l)) →
   Forall (fun t => markup_free (text t) = true) l).
Proof.
  cbn zeta. induction l as [|t l [IH1 IH2]]; [by split|].
  rewrite !fmap_cons. cbn [concat]. rewrite !length_app.
  rewrite row_html_retexted_length.
  replace (length (row_html t))
    with (length (row_open t) + length (text t) + length (row_close t))%nat
    by (by rewrite row_html_split, !length_app, Nat.add_assoc).
  destruct (html_escape_length (text t)) as [Ht1 Ht2]. split; [lia|].
  intros H. apply Forall_cons. split; [apply Ht2|apply IH2]; lia.
Qed.

Lemma completed_count_with_texts (f : str -> str) (l : list todo) :
  completed_count ((fun todo => retexted (f (text todo)) todo) <$> l)
  = completed_count l.
Proof.
  unfold completed_count. f_equal. induction l as [|t l IH]; [done|].
  rewrite fmap_cons, !filter_cons. cbn [retexted completed].
  destruct (decide (completed t)); cbn [length]; by rewrite IH.
Qed.

Lemma with_texts_free (self : TodoApp) :
  Forall (fun t => markup_free (text t) = true) (todos self) →
  with_texts html_escape self = self.
Proof.
  destruct self as [l n]. unfold with_texts. cbn [todos next_id].
  intros H. f_equal. induction H as [|t l Ht _ IH]; [done|].
  rewrite fmap_cons, IH. f_equal. unfold retexted.
  rewrite html_escape_free by done. by destruct t.
Qed.

(** The output is the escaped one exactly when there is nothing to
    escape. *)
Lemma display_escaped_iff (self : TodoApp) :
  display self = escaped_display self ↔
  Forall (fun t => markup_free (text t) = true) (todos self).
Proof.
  split.
  - unfold escaped_display. intros H.
    destruct (todos self) as [|t l] eqn:E; [apply Forall_nil_2|].
    rewrite !display_nonempty in H
      by (unfold with_texts; cbn [todos]; by rewrite ?E).
    unfold with_texts in H. cbn [todos] in H.
    rewrite completed_count_with_texts, length_fmap, E in H.
    apply app_inv_head, app_inv_head, app_inv_tail in H.
    apply (rows_escaped_length (t :: l)). by rewrite H.
  - intros H. unfold escaped_display. by rewrite with_texts_free.
Qed.

(** C3, as the code has it.  [get_todos_display] inserts the text of each
    record into its row as it is, between the opening and the closing part
    of the row, with no escaping: the text of every record occurs in the
    output as it is, inside its [todo-text] element.  The output is the one
    with every text escaped exactly when no text holds a
    markup-significant character. *)
Theorem display_inserts_text_verbatim (self : TodoApp) :
  match todos self with
  | [] => display self = empty_state_html
  | _ :: _ =>
      display self
      = style_html
        ++ stats_html (Z.of_nat (length (todos self)))
             (completed_count (todos self))
             (Z.of_nat (length (todos self)) - completed_count (todos self))
        ++ concat ((fun t => row_open t ++ text t ++ row_close t) <$> todos self)
        ++ lit "</div>"
  end ∧
  (∀ t, t ∈ todos self → occurs (text_cell (text t)) (display self) = true) ∧
  (display self = escaped_display self ↔
   Forall (fun t => markup_free (text t) = true) (todos self)).
Proof.
  split_and!; [|apply display_holds_text|apply display_escaped_iff].
  destruct (todos self) as [|t l] eqn:E; [by apply display_empty|].
  rewrite <- E, display_nonempty by (by rewrite E).
  do 4 f_equal. apply list_fmap_ext. intros _ t' _. apply row_html_split.
Qed.

(** C3, as the specification states it, fails: after adding the text
    [<b>] the output holds the markup as it is, [<b>], inside the
    [todo-text] element, and does not hold its escaped form,
    [&lt;b&gt;], there. *)
Lemma display_does_not_escape_text :
  let self := exec (add_todo (lit "<b>") (lit "2024-01-01 00:00:00")) init in
  occurs (text_cell (lit "<b>")) (display self) = true ∧
  occurs (text_cell (lit "&lt;b&gt;")) (display self) = false ∧
  html_escape (lit "<b>") = lit "&lt;b&gt;".
Proof. cbn zeta. split_and!; by vm_compute. Qed.

(** ** The operations at work on a store of two records *)

Lemma toggle_todo_sample :
  1 ∈ ids sample ∧
  exec (toggle_todo 1) (exec (toggle_todo 1) sample) = sample.
Proof.
  assert (1 ∈ ids sample) as H by (vm_compute; left).
  split; [exact H|].
  exact (proj2 (proj2 (toggle_todo_flips_and_is_involutive sample 1 H))).
Defined.

Lemma absent_id_sample :
  (7 ∉ ids sample) ∧
  toggle_todo 7 sample = (display sample, sample) ∧
  edit_todo 7 (lit "C") sample = (display sample, sample) ∧
  delete_todo 7 sample = (display sample, sample).
Proof.
  assert (7 ∉ ids sample) as H by compute_done.
  split; [exact H|]. exact (absent_id_is_noop sample 7 (lit "C") H).
Defined.

Lemma delete_todo_sample :
  NoDup (ids sample) ∧ 1 ∈ ids sample ∧
  ∃ l1 t l2,
    todos sample = l1 ++ t :: l2 ∧ id t = 1 ∧
    todos (exec (delete_todo 1) sample) = l1 ++ l2 ∧
    S (length (todos (exec (delete_todo 1) sample))) = length (todos sample) ∧
    next_id (exec (delete_todo 1) sample) = next_id sample.
Proof.
  assert (NoDup (ids sample)) as Hnd by compute_done.
  assert (1 ∈ ids sample) as Hin by (vm_compute; left).
  split_and!; [exact Hnd|exact Hin|].
  exact (proj1 (delete_todo_removes_matching sample 1) Hnd Hin).
Defined.

Lemma edit_todo_sample :
  whitespace_only (lit " C ") = false ∧ 2 ∈ ids sample ∧
  ∃ i t,
    first_with_id 2 (todos sample) i t ∧
    todos (exec (edit_todo 2 (lit " C ")) sample) =
      <[i := {| id := id t; text := strip (lit " C ");
                completed := completed t;
                created_at := created_at t |}]> (todos sample) ∧
    strip (lit " C ") ≠ [] ∧
    length (todos (exec (edit_todo 2 (lit " C ")) sample))
      = length (todos sample) ∧
    next_id (exec (edit_todo 2 (lit " C ")) sample) = next_id sample.
Proof.
  assert (whitespace_only (lit " C ") = false) as Hws by reflexivity.
  assert (2 ∈ ids sample) as Hin by (vm_compute; right; left).
  split_and!; [exact Hws|exact Hin|].
  exact (proj2 (edit_todo_changes_only_text sample 2 (lit " C ")) Hws Hin).
Defined.

(** The scenario of the specification: add [A], add [B], toggle 1, clear
    the completed records.  Only record 2 is left and the counts are
    total 1, completed 0, pending 1. *)
Example scenario :
  let self := exec clear_completed (exec (toggle_todo 1) sample) in
  todos self
    = [{| id := 2; text := lit "B"; completed := false;
          created_at := lit "2024-01-01 09:30:00" |}] ∧
  display self
    = style_html ++ stats_html 1 0 1
      ++ row_html {| id := 2; text := lit "B"; completed := false;
                     created_at := lit "2024-01-01 09:30:00" |}
      ++ lit "</div>".
Proof. split; by vm_compute. Qed.

(** The row rendered for the text [<b>]: the markup is in the output. *)
Example row_html_markup :
  row_html {| id := 1; text := lit "<b>"; completed := false;
              created_at := lit "now" |}
  = lit "
            <div class=" ++ dq ++ lit "todo-item " ++ dq ++ lit ">
                <div class=" ++ dq ++ lit "todo-text" ++ dq ++ lit "><b></div>
                <div class=" ++ dq ++ lit "todo-actions" ++ dq ++ lit ">
                    <span style=" ++ dq ++ lit "font-size: 12px; color: #6c757d;" ++ dq ++ lit ">now</span>
                </div>
            </div>
            ".
Proof. by vm_compute. Qed.

(** ** More on stripping *)

Lemma lstrip_fixed (s : str) :
  (∀ c, head s = Some c → isspace c = false) → lstrip s = s.
Proof.
  destruct s as [|a s]; [done|]. intros H. simpl.
  by rewrite (H a eq_refl).
Qed.

Lemma strip_fixed (s : str) :
  (∀ c, head s = Some c → isspace c = false) →
  (∀ c, last s = Some c → isspace c = false) →
  strip s = s.
Proof.
  intros Hh Hl. unfold strip, rstrip. rewrite (lstrip_fixed s Hh).
  rewrite lstrip_fixed; [apply reverse_involutive|].
  intros c. rewrite head_reverse. apply Hl.
Qed.

Lemma strip_idemp (s : str) : strip (strip s) = strip s.
Proof.
  destruct (strip_is_trim s) as (l & r & _ & _ & _ & Hh & Hl).
  by apply strip_fixed.
Qed.

Lemma whitespace_only_strip (s : str) :
  whitespace_only (strip s) = whitespace_only s.
Proof.
  destruct (whitespace_only s) eqn:E.
  - apply strip_nil_iff in E. by rewrite E.
  - destruct (whitespace_only (strip s)) eqn:E'; [|done].
    apply strip_nil_iff in E'. rewrite strip_idemp in E'.
    apply strip_nil_iff in E'. congruence.
Qed.

(** ** What each handler computes *)

Lemma add_todo_handler_run (text now : str) (self : TodoApp) :
  add_todo_handler text now self =
  let self' := exec (add_todo text now) self in
  ((display self', lit "",
    if whitespace_only text then lit "Please enter a todo item"
    else lit "Todo added successfully!"), self').
Proof.
  unfold add_todo_handler, exec, mbind, M_bind. rewrite add_todo_run.
  by destruct (whitespace_only text).
Qed.

Lemma toggle_todo_handler_run (todo_id : option Z) (self : TodoApp) :
  toggle_todo_handler todo_id self =
  match todo_id with
  | Some n =>
      let self' := exec (toggle_todo n) self in
      ((display self', lit "Todo status updated!"), self')
  | None => ((display self, lit "Please enter a valid todo ID"), self)
  end.
Proof.
  unfold toggle_todo_handler, exec. destruct todo_id as [n|].
  - unfold mbind, M_bind. by rewrite toggle_todo_run.
  - by run_method.
Qed.

Lemma delete_todo_handler_run (todo_id : option Z) (self : TodoApp) :
  delete_todo_handler todo_id self =
  match todo_id with
  | Some n =>
      let self' := exec (delete_todo n) self in
      ((display self', lit "Todo deleted!"), self')
  | None => ((display self, lit "Please enter a valid todo ID"), self)
  end.
Proof.
  unfold delete_todo_handler, exec. destruct todo_id as [n|].
  - unfold mbind, M_bind. by rewrite delete_todo_run.
  - by run_method.
Qed.

Lemma edit_todo_handler_run (todo_id : option Z) (new_text : str) (self : TodoApp) :
  edit_todo_handler todo_id new_text self =
  match todo_id, new_text with
  | Some n, _ :: _ =>
      let self' := exec (edit_todo n new_text) self in
      ((display self', lit "", lit "Todo updated!"), self')
  | _, _ =>
      ((display self, lit "", lit "Please enter valid todo ID and text"), self)
  end.
Proof.
  unfold edit_todo_handler, exec. destruct todo_id as [n|], new_text as [|c x];
    cbn [py_bool]; try by run_method.
  unfold mbind, M_bind. rewrite edit_todo_run.
  by destruct (whitespace_only (c :: x)).
Qed.

Lemma clear_completed_handler_run (self : TodoApp) :
  clear_completed_handler self =
  let self' := exec clear_completed self in
  ((display self', lit "Completed todos cleared!"), self').
Proof.
  unfold clear_completed_handler, exec, mbind, M_bind.
  by rewrite clear_completed_run.
Qed.

Lemma refresh_handler_run (self : TodoApp) :
  refresh_handler self = ((display self, lit "Refreshed!"), self).
Proof. unfold refresh_handler. by run_method. Qed.

(** Every event acts on the object as one store operation or as none. *)
Lemma handle_as_op (e : event) (self : TodoApp) :
  (handle e self).2 = self ∨ ∃ o, (handle e self).2 = apply_op o self.
Proof.
  destruct e as [text now|[n|]|[n|]|[n|] new_text| |]; unfold handle.
  - rewrite add_todo_handler_run. right. by exists (Add text now).
  - rewrite toggle_todo_handler_run. right. by exists (Toggle n).
  - rewrite toggle_todo_handler_run. by left.
  - rewrite delete_todo_handler_run. right. by exists (Delete n).
  - rewrite delete_todo_handler_run. by left.
  - rewrite edit_todo_handler_run. destruct new_text as [|c x]; [by left|].
    right. by exists (Edit n (c :: x)).
  - rewrite edit_todo_handler_run. by left.
  - rewrite clear_completed_handler_run. right. by exists ClearCompleted.
  - rewrite refresh_handler_run. by left.
Qed.

Lemma handle_all_snoc (es : list event) (e : event) (self : TodoApp) :
  handle_all (es ++ [e]) self = (handle e (handle_all es self)).2.
Proof. unfold handle_all. by rewrite fold_left_app. Qed.

Lemma handle_all_as_ops (es : list event) (self : TodoApp) :
  ∃ ops, handle_all es self = run_ops ops self.
Proof.
  induction es as [|e es IH] using rev_ind.
  - by exists [].
  - destruct IH as [ops Hops]. rewrite handle_all_snoc, Hops.
    destruct (handle_as_op e (run_ops ops self)) as [->|[o ->]].
    + by exists ops.
    + exists (ops ++ [o]). by rewrite run_ops_snoc.
Qed.

(** ** The four shapes of a store operation *)

(** An operation leaves the object as it is, appends a record with the id
    of the counter and a stripped text that is not empty, rewrites the
    first record with some id keeping its id and creation time, or filters
    the records. *)
Lemma apply_op_shape (o : op) (self : TodoApp) :
  apply_op o self = self ∨
  (∃ x now, whitespace_only x = false ∧
     apply_op o self =
       {| todos := todos self ++ [mk_todo (next_id self) (strip x) false now];
          next_id := next_id self + 1 |}) ∨
  (∃ f i, (f = flipped ∨ ∃ x, whitespace_only x = false ∧ f = retexted (strip x)) ∧
     apply_op o self =
       {| todos := alter_first f i (todos self); next_id := next_id self |}) ∨
  (∃ (P : todo -> Prop) (dec : ∀ t, Decision (P t)),
     apply_op o self =
       {| todos := filter P (todos self); next_id := next_id self |}).
Proof.
  destruct o as [text now|todo_id|todo_id new_text|todo_id|];
    unfold apply_op, exec.
  - rewrite add_todo_run. destruct (whitespace_only text) eqn:E; [by left|].
    right; left. by exists text, now.
  - rewrite toggle_todo_run, toggle_loop_alter. right; right; left.
    exists flipped, todo_id. split; [by left|done].
  - rewrite edit_todo_run. destruct (whitespace_only new_text) eqn:E; [by left|].
    cbn [snd]. rewrite edit_loop_alter. right; right; left.
    exists (retexted (strip new_text)), todo_id. split; [|done].
    right. by exists new_text.
  - rewrite delete_todo_run. right; right; right. by eexists _, _.
  - rewrite clear_completed_run. right; right; right. by eexists _, _.
Qed.

Lemma rewrite_keeps (f : todo -> todo) :
  (f = flipped ∨ ∃ x, whitespace_only x = false ∧ f = retexted (strip x)) →
  ∀ t, id (f t) = id t ∧ created_at (f t) = created_at t.
Proof. intros [->|(x & _ & ->)] t; done. Qed.

Lemma alter_first_elem (f : todo -> todo) (i : Z) (l : list todo) (t' : todo) :
  t' ∈ alter_first f i l → t' ∈ l ∨ ∃ t, t ∈ l ∧ t' = f t.
Proof.
  induction l as [|t l IH]; simpl; [by left|].
  case_bool_decide.
  - intros [->|H']%elem_of_cons.
    + right. exists t. split; [left|done].
    + left. by right.
  - intros [->|H']%elem_of_cons; [left; left|].
    destruct (IH H') as [?|(t0 & ? & ?)]; [left; by right|].
    right. exists t0. split; [by right|done].
Qed.

Lemma alter_first_Forall (P : todo -> Prop) (f : todo -> todo) (i : Z) (l : list todo) :
  (∀ t, P t → P (f t)) → Forall P l → Forall P (alter_first f i l).
Proof.
  intros Hf Hl. apply Forall_forall. intros t' Ht'.
  rewrite Forall_forall in Hl.
  destruct (alter_first_elem f i l t' Ht') as [?|(t & ? & ->)]; auto.
Qed.

Lemma Forall_filter_keep {A : Type} (P Q : A -> Prop) `{!∀ x, Decision (Q x)}
    (l : list A) :
  Forall P l → Forall P (filter Q l).
Proof.
  rewrite !Forall_forall. intros Hall x [_ Hx]%list_elem_of_filter. auto.
Qed.

Lemma run_ops_next_id (ops : list op) (self : TodoApp) :
  next_id self ≤ next_id (run_ops ops self).
Proof.
  induction ops as [|o ops IH] using rev_ind; [done|].
  rewrite run_ops_snoc. pose proof (apply_op_next_id o (run_ops ops self)). lia.
Qed.

Lemma run_ops_app (ops1 ops2 : list op) (self : TodoApp) :
  run_ops (ops1 ++ ops2) self = run_ops ops2 (run_ops ops1 self).
Proof. unfold run_ops. by rewrite fold_left_app. Qed.

(** ** Texts in the store *)

Lemma apply_op_texts (o : op) (self : TodoApp) :
  Forall (fun t => text t ≠ [] ∧ strip (text t) = text t) (todos self) →
  Forall (fun t => text t ≠ [] ∧ strip (text t) = text t)
    (todos (apply_op o self)).
Proof.
  intros H.
  destruct (apply_op_shape o self)
    as [->|[(x & now & Hx & ->)|[(f & i & Hf & ->)|(P & dec & ->)]]];
    cbn [todos]; [done| | |].
  - apply Forall_app. split; [done|]. apply Forall_singleton. cbn [text].
    split; [|apply strip_idemp]. rewrite strip_nil_iff. by rewrite Hx.
  - apply alter_first_Forall; [|done]. intros t Ht.
    destruct Hf as [->|(x & Hx & ->)]; [done|]. cbn [retexted text].
    split; [|apply strip_idemp]. rewrite strip_nil_iff. by rewrite Hx.
  - by apply Forall_filter_keep.
Qed.

(** X1. Whatever the user clicks, every record of the store has a text
    that is not empty and has no whitespace at either end: stripping it
    gives it back. *)
Theorem texts_stay_stripped_and_nonempty (es : list event) :
  Forall (fun t => text t ≠ [] ∧ strip (text t) = text t)
    (todos (handle_all es init)).
Proof.
  destruct (handle_all_as_ops es init) as [ops ->].
  induction ops as [|o ops IH] using rev_ind; [apply Forall_nil_2|].
  rewrite run_ops_snoc. by apply apply_op_texts.
Qed.

(** ** Ids in the store *)

Lemma increasing_snoc (l : list Z) (n : Z) :
  increasing l → Forall (fun i => i < n) l → increasing (l ++ [n]).
Proof.
  induction l as [|i l IH]; simpl; [done|].
  intros [Hi Hl] [Hin Hln]%Forall_cons. split; [|by apply IH].
  apply Forall_app. split; [done|]. by apply Forall_singleton.
Qed.

Lemma increasing_sublist (l k : list Z) :
  l `sublist_of` k → increasing k → increasing l.
Proof.
  induction 1 as [|i l k Hs IH|i l k Hs IH]; simpl; [done| |].
  - intros [Hi Hk]. split; [|by apply IH].
    rewrite Forall_forall in Hi |- *. intros j Hj. apply Hi.
    by eapply elem_of_sublist.
  - intros [_ Hk]. by apply IH.
Qed.

Lemma apply_op_ids (o : op) (self : TodoApp) :
  ids (apply_op o self) `sublist_of` ids self ∨
  ids (apply_op o self) = ids self ++ [next_id self] ∧
  next_id (apply_op o self) = next_id self + 1.
Proof.
  unfold ids.
  destruct (apply_op_shape o self)
    as [->|[(x & now & Hx & ->)|[(f & i & Hf & ->)|(P & dec & ->)]]];
    cbn [todos next_id].
  - by left.
  - right. by rewrite fmap_app.
  - left. rewrite alter_first_ids; [done|]. intros t.
    by destruct (rewrite_keeps f Hf t).
  - left. apply ids_filter_sublist.
Qed.

Lemma apply_op_increasing (o : op) (self : TodoApp) :
  increasing (ids self) ∧ Forall (fun i => 1 ≤ i < next_id self) (ids self)
    ∧ 1 ≤ next_id self →
  increasing (ids (apply_op o self)) ∧
  Forall (fun i => 1 ≤ i < next_id (apply_op o self)) (ids (apply_op o self))
    ∧ 1 ≤ next_id (apply_op o self).
Proof.
  intros (Hinc & Hb & Hn). pose proof (apply_op_next_id o self) as Hmono.
  destruct (apply_op_ids o self) as [Hsub|[Heq Hnext]].
  - split_and!; [by eapply increasing_sublist| |lia].
    rewrite Forall_forall in Hb |- *. intros i Hi.
    pose proof (Hb i (elem_of_sublist _ _ _ Hi Hsub)). lia.
  - rewrite Heq, Hnext. split_and!; [| |lia].
    + apply increasing_snoc; [done|]. eapply Forall_impl; [exact Hb|].
      intros i Hi. simpl in Hi. lia.
    + apply Forall_app. split.
      * eapply Forall_impl; [exact Hb|]. intros i Hi. simpl in Hi. lia.
      * apply Forall_singleton. lia.
Qed.

(** X2. Whatever the user clicks, the ids of the store are in strictly
    increasing order, so the records are shown in the order they were
    created, and every id lies between 1 and the counter, the counter
    excluded. *)
Theorem ids_increasing_and_bounded (es : list event) :
  let self := handle_all es init in
  increasing (ids self) ∧
  Forall (fun i => 1 ≤ i < next_id self) (ids self).
Proof.
  cbn zeta. destruct (handle_all_as_ops es init) as [ops ->].
  cut (increasing (ids (run_ops ops init)) ∧
       Forall (fun i => 1 ≤ i < next_id (run_ops ops init))
         (ids (run_ops ops init)) ∧ 1 ≤ next_id (run_ops ops init)).
  { intros (? & ? & _). by split. }
  induction ops as [|o ops IH] using rev_ind.
  - split_and!; [done|apply Forall_nil_2|done].
  - rewrite run_ops_snoc. by apply apply_op_increasing.
Qed.

Lemma apply_op_unused (o : op) (self : TodoApp) (i : Z) :
  i < next_id self → i ∉ ids self →
  i < next_id (apply_op o self) ∧ i ∉ ids (apply_op o self).
Proof.
  intros Hlt Hnin. pose proof (apply_op_next_id o self) as Hmono.
  split; [lia|].
  destruct (apply_op_ids o self) as [Hsub|[Heq _]].
  - intros Hin. apply Hnin. by eapply elem_of_sublist.
  - rewrite Heq. intros [Hin|Hin%list_elem_of_singleton]%elem_of_app; [done|lia].
Qed.

(** X3. An id is never used again: an id below the counter that no record
    of the store carries, because it was deleted or cleared, is carried by
    no record after any further operations. *)
Theorem ids_never_reused (ops : list op) (self : TodoApp) (i : Z) :
  i < next_id self → i ∉ ids self → i ∉ ids (run_ops ops self).
Proof.
  intros Hlt Hnin.
  cut (i < next_id (run_ops ops self) ∧ i ∉ ids (run_ops ops self)).
  { by intros [_ ?]. }
  induction ops as [|o ops [IH1 IH2]] using rev_ind; [done|].
  rewrite run_ops_snoc. by apply apply_op_unused.
Qed.

Lemma ids_never_reused_sample :
  1 < next_id (exec (delete_todo 1) sample) ∧
  (1 ∉ ids (exec (delete_todo 1) sample)) ∧
  1 ∉ ids (run_ops [Add (lit "C") (lit "2024-01-01 10:00:00"); Toggle 1]
             (exec (delete_todo 1) sample)).
Proof.
  assert (1 < next_id (exec (delete_todo 1) sample)) as H1 by reflexivity.
  assert (1 ∉ ids (exec (delete_todo 1) sample)) as H2 by compute_done.
  split_and!; [exact H1|exact H2|].
  exact (ids_never_reused _ _ 1 H1 H2).
Defined.

(** ** Creation times *)

Lemma apply_op_origin (o : op) (self : TodoApp) (t' : todo) :
  t' ∈ todos (apply_op o self) → id t' < next_id self →
  ∃ t, t ∈ todos self ∧ id t = id t' ∧ created_at t = created_at t'.
Proof.
  destruct (apply_op_shape o self)
    as [->|[(x & now & Hx & ->)|[(f & i & Hf & ->)|(P & dec & ->)]]];
    cbn [todos]; intros Hin Hlt.
  - by exists t'.
  - apply elem_of_app in Hin as [Hin|Hin%list_elem_of_singleton].
    + by exists t'.
    + subst t'. simpl in Hlt. lia.
  - destruct (alter_first_elem f i _ t' Hin) as [?|(t & Ht & ->)].
    + by exists t'.
    + exists t. by destruct (rewrite_keeps f Hf t).
  - apply list_elem_of_filter in Hin as [_ Hin]. by exists t'.
Qed.

Lemma same_id_same_record (l : list todo) (t t' : todo) :
  NoDup (id <$> l) → t ∈ l → t' ∈ l → id t = id t' → t = t'.
Proof.
  intros Hnd [i Hi]%list_elem_of_lookup [j Hj]%list_elem_of_lookup Hid.
  assert (i = j) as -> by (by eapply unique_position).
  congruence.
Qed.

Lemma run_ops_created_at (ops : list op) (self : TodoApp) (t t' : todo) :
  store_inv self →
  t ∈ todos self → t' ∈ todos (run_ops ops self) → id t = id t' →
  created_at t = created_at t'.
Proof.
  intros [Hnd Hlt] Ht. revert t'.
  induction ops as [|o ops IH] using rev_ind; intros t' Ht' Hid.
  - by rewrite (same_id_same_record (todos self) t t').
  - rewrite run_ops_snoc in Ht'.
    assert (id t < next_id self) as Hb.
    { rewrite Forall_forall in Hlt. apply Hlt. unfold ids.
      by apply list_elem_of_fmap_2. }
    pose proof (run_ops_next_id ops self) as Hmono.
    destruct (apply_op_origin o _ t' Ht') as (t'' & Ht'' & Hid'' & Hc); [lia|].
    rewrite <- Hc. apply IH; [done|congruence].
Qed.

(** X4. The creation time of a record never changes: a record of the
    store reached by some operations from the initial state and a record
    with the same id in the store after any further operations have the
    same creation time. *)
Theorem created_at_never_changes (ops1 ops2 : list op) (t t' : todo) :
  t ∈ todos (run_ops ops1 init) →
  t' ∈ todos (run_ops (ops1 ++ ops2) init) →
  id t = id t' →
  created_at t = created_at t'.
Proof.
  rewrite run_ops_app. apply run_ops_created_at.
  apply run_ops_inv, store_inv_init.
Qed.

Lemma created_at_never_changes_sample :
  let t := mk_todo 1 (lit "A") false (lit "2024-01-01 09:00:00") in
  let t' := mk_todo 1 (lit "Z") true (lit "2024-01-01 09:00:00") in
  let ops1 := [Add (lit "A") (lit "2024-01-01 09:00:00")] in
  let ops2 := [Toggle 1; Edit 1 (lit " Z")] in
  t ∈ todos (run_ops ops1 init) ∧
  t' ∈ todos (run_ops (ops1 ++ ops2) init) ∧
  id t = id t' ∧
  created_at t = created_at t'.
Proof.
  cbn zeta.
  set (t := mk_todo 1 (lit "A") false (lit "2024-01-01 09:00:00")).
  set (t' := mk_todo 1 (lit "Z") true (lit "2024-01-01 09:00:00")).
  set (ops1 := [Add (lit "A") (lit "2024-01-01 09:00:00")]).
  set (ops2 := [Toggle 1; Edit 1 (lit " Z")]).
  assert (t ∈ todos (run_ops ops1 init)) as H1 by (vm_compute; left).
  assert (t' ∈ todos (run_ops (ops1 ++ ops2) init)) as H2 by (vm_compute; left).
  assert (id t = id t') as H3 by reflexivity.
  split_and!; [exact H1|exact H2|exact H3|].
  exact (created_at_never_changes ops1 ops2 t t' H1 H2 H3).
Defined.

(** ** How the operations compose *)

(** X5. After [delete_todo] no record of the store has the id, whatever
    the store was, and deleting the same id again changes nothing. *)
Theorem delete_todo_clears_id (self : TodoApp) (todo_id : Z) :
  let self' := exec (delete_todo todo_id) self in
  (todo_id ∉ ids self') ∧ delete_todo todo_id self' = (display self', self').
Proof.
  cbn zeta. unfold exec, ids. rewrite !delete_todo_run.
  cbn [snd todos next_id]. split.
  - intros (t & Ht & Hin)%list_elem_of_fmap.
    apply list_elem_of_filter in Hin as [Hne _]. by apply Hne.
  - by rewrite list_filter_filter_l.
Qed.

(** X6. Adding a text and deleting the id it was given undoes the add on
    the records, when the ids of the store are below the counter as they
    are in every store an operation sequence reaches; the counter stays
    incremented. *)
Theorem add_then_delete_restores_records (self : TodoApp) (text now : str) :
  Forall (fun i => i < next_id self) (ids self) →
  whitespace_only text = false →
  let self' := exec (delete_todo (next_id self)) (exec (add_todo text now) self) in
  todos self' = todos self ∧ next_id self' = next_id self + 1.
Proof.
  intros Hlt Hws. cbn zeta. unfold exec.
  rewrite add_todo_run, Hws, delete_todo_run. cbn [snd todos next_id].
  split; [|done]. rewrite filter_app, filter_id_absent.
  - rewrite filter_cons_False by (intros Hc; by apply Hc).
    by rewrite filter_nil, app_nil_r.
  - intros Hin. rewrite Forall_forall in Hlt. apply Hlt in Hin. lia.
Qed.

Lemma add_then_delete_sample :
  Forall (fun i => i < next_id sample) (ids sample) ∧
  whitespace_only (lit " C ") = false ∧
  todos (exec (delete_todo (next_id sample))
           (exec (add_todo (lit " C ") (lit "2024-01-01 10:00:00")) sample))
    = todos sample ∧
  next_id (exec (delete_todo (next_id sample))
             (exec (add_todo (lit " C ") (lit "2024-01-01 10:00:00")) sample))
    = next_id sample + 1.
Proof.
  assert (Forall (fun i => i < next_id sample) (ids sample)) as H1
    by (vm_compute; repeat constructor).
  assert (whitespace_only (lit " C ") = false) as H2 by reflexivity.
  split_and!; [exact H1|exact H2|..];
    apply (add_then_delete_restores_records sample (lit " C ")
             (lit "2024-01-01 10:00:00") H1 H2).
Defined.

Section alter_first_commute.
Variables f g : todo -> todo.
Hypothesis f_id : ∀ t, id (f t) = id t.
Hypothesis g_id : ∀ t, id (g t) = id t.
Hypothesis fg : ∀ t, f (g t) = g (f t).

Lemma alter_first_comm (i j : Z) (l : list todo) :
  alter_first f i (alter_first g j l) = alter_first g j (alter_first f i l).
Proof.
  induction l as [|t l IH]; [done|]. cbn [alter_first].
  repeat (case_bool_decide; cbn [alter_first]);
    rewrite ?f_id, ?g_id in *; first [congruence|by rewrite ?fg, ?IH].
Qed.
End alter_first_commute.

Lemma alter_first_filter (f : todo -> todo) (i j : Z) (l : list todo) :
  (∀ t, id (f t) = id t) →
  alter_first f i (filter (fun todo => id todo ≠ j) l)
  = filter (fun todo => id todo ≠ j) (alter_first f i l).
Proof.
  intros Hf. induction l as [|t l IH]; [done|]. cbn [alter_first].
  destruct (decide (id t = j)) as [Hj|Hj].
  - rewrite filter_cons_False by (intros Hc; by apply Hc).
    case_bool_decide as Hi.
    + rewrite filter_cons_False by (rewrite Hf; intros Hc; by apply Hc).
      apply alter_first_absent.
      intros (t0 & Ht0 & Hin)%list_elem_of_fmap.
      apply list_elem_of_filter in Hin as [Hne _]. congruence.
    + by rewrite filter_cons_False by (intros Hc; by apply Hc).
  - rewrite filter_cons_True by done. cbn [alter_first].
    case_bool_decide as Hi.
    + by rewrite filter_cons_True by (by rewrite Hf).
    + rewrite filter_cons_True by done. by rewrite IH.
Qed.

(** X7. [toggle_todo] and [edit_todo] commute, on the same id or on two:
    either order leaves the same object. *)
Theorem toggle_edit_commute (self : TodoApp) (i j : Z) (new_text : str) :
  exec (toggle_todo i) (exec (edit_todo j new_text) self)
  = exec (edit_todo j new_text) (exec (toggle_todo i) self).
Proof.
  unfold exec. rewrite !toggle_todo_run, !edit_todo_run.
  destruct (whitespace_only new_text); cbn [snd todos next_id]; [done|].
  rewrite !toggle_loop_alter, !edit_loop_alter. f_equal.
  by apply alter_first_comm.
Qed.

(** X8. [delete_todo] commutes with [toggle_todo] and with [edit_todo], on
    the same id or on two: either order leaves the same object. *)
Theorem delete_commutes_with_toggle_and_edit
    (self : TodoApp) (i j : Z) (new_text : str) :
  exec (toggle_todo i) (exec (delete_todo j) self)
  = exec (delete_todo j) (exec (toggle_todo i) self) ∧
  exec (edit_todo i new_text) (exec (delete_todo j) self)
  = exec (delete_todo j) (exec (edit_todo i new_text) self).
Proof.
  unfold exec. rewrite !toggle_todo_run, !edit_todo_run, !delete_todo_run.
  split.
  - cbn [snd todos next_id]. rewrite !toggle_loop_alter. f_equal.
    by apply alter_first_filter.
  - destruct (whitespace_only new_text); cbn [snd todos next_id]; [done|].
    rewrite !edit_loop_alter. f_equal. by apply alter_first_filter.
Qed.

(** ** More on the rendered output *)

Lemma row_html_shown (t t' : todo) : shown t = shown t' → row_html t = row_html t'.
Proof.
  destruct t, t'. unfold shown. cbn [text completed created_at].
  intros [= -> -> ->]. done.
Qed.

Lemma shown_rows (l l' : list todo) :
  shown <$> l = shown <$> l' →
  row_html <$> l = row_html <$> l' ∧ length l = length l' ∧
  completed_count l = completed_count l'.
Proof.
  unfold completed_count. revert l'.
  induction l as [|t l IH]; intros [|t' l'] H; try done.
  rewrite !fmap_cons in H.
  pose proof (f_equal head H) as Ht. pose proof (f_equal tail H) as Hl.
  cbn [head tail] in Ht, Hl. apply (inj Some) in Ht.
  destruct (IH l' Hl) as (Hr & Hlen & Hc). rewrite !fmap_cons.
  split_and!.
  - by rewrite (row_html_shown t t' Ht), Hr.
  - simpl. by rewrite Hlen.
  - rewrite !filter_cons.
    assert (completed t = completed t') as ->
      by (unfold shown in Ht; congruence).
    destruct (decide (completed t')); simpl; lia.
Qed.

(** X9. The rendered output does not depend on the ids of the records nor
    on the counter: two objects whose records agree, in order, on text,
    flag and creation time are rendered alike. *)
Theorem display_ignores_ids (self1 self2 : TodoApp) :
  shown <$> todos self1 = shown <$> todos self2 →
  display self1 = display self2.
Proof.
  intros H. destruct (shown_rows _ _ H) as (Hr & Hlen & Hc).
  destruct (todos self1) as [|t1 l1] eqn:E1, (todos self2) as [|t2 l2] eqn:E2;
    try done.
  - by rewrite !display_empty.
  - rewrite !display_nonempty by (by rewrite ?E1, ?E2).
    by rewrite E1, E2, Hr, Hlen, Hc.
Qed.

Lemma display_ignores_ids_sample :
  let self1 := {| todos := [mk_todo 1 (lit "A") true (lit "t")]; next_id := 2 |} in
  let self2 := {| todos := [mk_todo 7 (lit "A") true (lit "t")]; next_id := 9 |} in
  shown <$> todos self1 = shown <$> todos self2 ∧
  display self1 = display self2.
Proof.
  cbn zeta.
  set (self1 := {| todos := [mk_todo 1 (lit "A") true (lit "t")]; next_id := 2 |}).
  set (self2 := {| todos := [mk_todo 7 (lit "A") true (lit "t")]; next_id := 9 |}).
  assert (shown <$> todos self1 = shown <$> todos self2) as H by reflexivity.
  split; [exact H|exact (display_ignores_ids self1 self2 H)].
Defined.

Lemma pending_count (l : list todo) :
  Z.of_nat (length l) - completed_count l
  = Z.of_nat (length (filter (fun t => completed t = false) l)).
Proof.
  unfold completed_count. induction l as [|t l IH]; [done|].
  destruct (completed t) eqn:E.
  - rewrite filter_cons_True by (by rewrite E).
    rewrite filter_cons_False by (by rewrite E). cbn [length]. lia.
  - rewrite filter_cons_False by (rewrite E; intros []).
    rewrite filter_cons_True by done. cbn [length]. lia.
Qed.

(** X10. For a store with records, the number a reader finds in the
    output after the label [Pending: ] is the number of records whose flag
    is false, the one after [Completed: ] the number of those whose flag
    is true, and the one after [Total: ] the number of records. *)
Theorem display_counts_by_flag (self : TodoApp) :
  todos self ≠ [] →
  summary_counts (display self)
  = Some (Z.of_nat (length (todos self)),
          Z.of_nat (length (filter (fun t => completed t = true) (todos self))),
          Z.of_nat (length (filter (fun t => completed t = false) (todos self)))).
Proof.
  intros H. rewrite summary_counts_display by done.
  rewrite pending_count. do 3 f_equal. unfold completed_count. do 2 f_equal.
  apply list_filter_iff. intros t'. by destruct (completed t').
Qed.

Lemma display_counts_by_flag_sample :
  todos (exec (toggle_todo 1) sample) ≠ [] ∧
  summary_counts (display (exec (toggle_todo 1) sample)) = Some (2, 1, 1).
Proof.
  assert (todos (exec (toggle_todo 1) sample) ≠ []) as H by (by vm_compute).
  split; [exact H|].
  exact (display_counts_by_flag (exec (toggle_todo 1) sample) H).
Defined.

Lemma completed_count_app (l k : list todo) :
  completed_count (l ++ k) = completed_count l + completed_count k.
Proof. unfold completed_count. rewrite filter_app, length_app. lia. Qed.

Lemma completed_count_cons (t : todo) (l : list todo) :
  completed_count (t :: l)
  = (if completed t then 1 else 0) + completed_count l.
Proof.
  unfold completed_count. destruct (completed t) eqn:E.
  - rewrite filter_cons_True by (by rewrite E). cbn [length]. lia.
  - rewrite filter_cons_False by (rewrite E; intros []). lia.
Qed.

(** X11. Toggling an id the store holds keeps the number of records and
    moves the completed count by exactly one: up when the first record
    with the id was pending, down when it was completed. *)
Theorem toggle_todo_moves_count_by_one (self : TodoApp) (todo_id : Z) :
  todo_id ∈ ids self →
  let self' := exec (toggle_todo todo_id) self in
  ∃ i t,
    first_with_id todo_id (todos self) i t ∧
    length (todos self') = length (todos self) ∧
    completed_count (todos self')
    = completed_count (todos self) + (if completed t then -1 else 1).
Proof.
  intros Hin. cbn zeta. unfold exec. rewrite toggle_todo_run.
  cbn [snd todos]. rewrite toggle_loop_alter.
  destruct (alter_first_present flipped todo_id (todos self) Hin)
    as (i & t & Hfirst & Heq).
  exists i, t. split_and!; [done|by apply alter_first_length|].
  destruct Hfirst as (Hi & _ & _). rewrite Heq, insert_take_drop.
  - rewrite <- (take_drop_middle (todos self) i t Hi) at 3.
    rewrite !completed_count_app, !completed_count_cons.
    cbn [flipped completed]. destruct (completed t); simpl; lia.
  - by eapply lookup_lt_Some.
Qed.

Lemma toggle_todo_moves_count_sample :
  2 ∈ ids sample ∧
  ∃ i t,
    first_with_id 2 (todos sample) i t ∧
    length (todos (exec (toggle_todo 2) sample)) = length (todos sample) ∧
    completed_count (todos (exec (toggle_todo 2) sample))
    = completed_count (todos sample) + (if completed t then -1 else 1).
Proof.
  assert (2 ∈ ids sample) as H by (vm_compute; right; left).
  split; [exact H|exact (toggle_todo_moves_count_by_one sample 2 H)].
Defined.

(** X12. After [clear_completed] no record is completed: the completed
    count is 0, and when records are left the numbers a reader finds in
    the output are the number of records after [Total: ], 0 after
    [Completed: ] and the number of records after [Pending: ]; when none
    is left the output is the empty-state text. *)
Theorem clear_completed_leaves_none_completed (self : TodoApp) :
  let self' := exec clear_completed self in
  Forall (fun t => completed t = false) (todos self') ∧
  completed_count (todos self') = 0 ∧
  match todos self' with
  | [] =>
      display self' = empty_state_html ∧
      occurs (lit "No todos yet!") (display self') = true
  | _ :: _ =>
      summary_counts (display self')
      = Some (Z.of_nat (length (todos self')), 0,
              Z.of_nat (length (todos self'))) ∧
      display self'
      = style_html
        ++ stats_html (Z.of_nat (length (todos self'))) 0
             (Z.of_nat (length (todos self')))
        ++ concat (row_html <$> todos self') ++ lit "</div>"
  end.
Proof.
  cbn zeta. unfold exec. rewrite clear_completed_run. cbn [snd].
  set (self' := {| todos := _; next_id := _ |}).
  assert (Forall (fun t => completed t = false) (todos self')) as Hall.
  { apply Forall_forall. intros t [Hc _]%list_elem_of_filter.
    by destruct (completed t). }
  assert (completed_count (todos self') = 0) as Hz.
  { clear -Hall. induction Hall as [|t l Ht _ IH]; [done|].
    by rewrite completed_count_cons, Ht, IH. }
  split_and!; [done..|].
  destruct (todos self') as [|t l] eqn:E.
  - rewrite (display_empty self' E). by vm_compute.
  - rewrite <- E in Hz |- *.
    rewrite summary_counts_display, display_nonempty by (by rewrite E).
    by rewrite Hz, Z.sub_0_r.
Qed.

(** ** The list for editing *)




(** ** The handlers *)

(** X14. Every handler hands the page the rendering of the object as the
    handler leaves it, also when it rejects its input, and a status line
    that is not empty. *)
Theorem handlers_show_current_store (e : event) (self : TodoApp) :
  (handle e self).1.1 = display (handle e self).2 ∧
  (handle e self).1.2 ≠ [].
Proof.
  destruct e as [text now|[n|]|[n|]|[n|] [|c x]| |]; unfold handle;
    rewrite ?add_todo_handler_run, ?toggle_todo_handler_run,
      ?delete_todo_handler_run, ?edit_todo_handler_run,
      ?clear_completed_handler_run, ?refresh_handler_run;
    cbn [fst snd]; try done.
  by destruct (whitespace_only text).
Qed.

(** X15. [add_todo_handler] always hands back an empty string for the
    input box.  Its status line is [Todo added successfully!] exactly when
    the text was accepted, and then the store has one record more; for an
    empty or whitespace-only text it is the message of [add_todo] and the
    object is as it was. *)
Theorem add_todo_handler_status (text now : str) (self : TodoApp) :
  let r := result (add_todo_handler text now) self in
  let self' := exec (add_todo_handler text now) self in
  r.1.2 = [] ∧
  if whitespace_only text then
    r.2 = lit "Please enter a todo item" ∧ self' = self
  else
    r.2 = lit "Todo added successfully!" ∧
    length (todos self') = S (length (todos self)).
Proof.
  cbn zeta. unfold result, exec at 1 2. rewrite add_todo_handler_run.
  cbn [fst snd]. unfold exec. rewrite add_todo_run.
  destruct (whitespace_only text); cbn [fst snd todos]; [done|].
  split_and!; [done..|]. rewrite length_app. simpl. lia.
Qed.

(** X16. A handler that gets no id, and [edit_todo_handler] when it gets
    an empty text, changes nothing and reports the input as invalid. *)
Theorem handlers_reject_missing_input
    (self : TodoApp) (todo_id : option Z) (new_text : str) :
  toggle_todo_handler None self
  = ((display self, lit "Please enter a valid todo ID"), self) ∧
  delete_todo_handler None self
  = ((display self, lit "Please enter a valid todo ID"), self) ∧
  edit_todo_handler None new_text self
  = ((display self, lit "", lit "Please enter valid todo ID and text"), self) ∧
  edit_todo_handler todo_id [] self
  = ((display self, lit "", lit "Please enter valid todo ID and text"), self).
Proof.
  rewrite !toggle_todo_handler_run, !delete_todo_handler_run,
    !edit_todo_handler_run.
  by destruct todo_id, new_text.
Qed.

(** X17. The status line of a handler reports success although nothing
    changed: for an id the store does not hold, [toggle_todo_handler] says
    [Todo status updated!], [delete_todo_handler] says [Todo deleted!] and
    [edit_todo_handler] says [Todo updated!]; and [edit_todo_handler] says
    so for any id when the text is whitespace only.  The object is as it
    was in each case. *)
Theorem handlers_report_success_without_change
    (self : TodoApp) (n m : Z) (new_text : str) :
  n ∉ ids self →
  new_text ≠ [] →
  toggle_todo_handler (Some n) self
  = ((display self, lit "Todo status updated!"), self) ∧
  delete_todo_handler (Some n) self
  = ((display self, lit "Todo deleted!"), self) ∧
  edit_todo_handler (Some n) new_text self
  = ((display self, lit "", lit "Todo updated!"), self) ∧
  (whitespace_only new_text = true →
   edit_todo_handler (Some m) new_text self
   = ((display self, lit "", lit "Todo updated!"), self)).
Proof.
  intros Hnin Hne. destruct new_text as [|c x]; [done|].
  rewrite toggle_todo_handler_run, delete_todo_handler_run,
    !edit_todo_handler_run.
  cbn zeta. unfold exec.
  rewrite toggle_todo_run, delete_todo_run, !edit_todo_run.
  cbn zeta. rewrite toggle_loop_alter, edit_loop_alter.
  rewrite !alter_first_absent, filter_id_absent by done.
  destruct self as [l k]. cbn [todos next_id snd].
  split_and!; [done|done| |].
  - by destruct (whitespace_only (c :: x)).
  - by intros ->.
Qed.

Lemma handlers_report_success_sample :
  (7 ∉ ids sample) ∧ lit "  " ≠ [] ∧
  toggle_todo_handler (Some 7) sample
  = ((display sample, lit "Todo status updated!"), sample) ∧
  delete_todo_handler (Some 7) sample
  = ((display sample, lit "Todo deleted!"), sample) ∧
  edit_todo_handler (Some 7) (lit "  ") sample
  = ((display sample, lit "", lit "Todo updated!"), sample) ∧
  (whitespace_only (lit "  ") = true →
   edit_todo_handler (Some 1) (lit "  ") sample
   = ((display sample, lit "", lit "Todo updated!"), sample)).
Proof.
  assert (7 ∉ ids sample) as H1 by compute_done.
  assert (lit "  " ≠ []) as H2 by (by vm_compute).
  pose proof (handlers_report_success_without_change sample 7 1 (lit "  ")
                H1 H2) as (Ha & Hb & Hc & Hd).
  split_and!; [exact H1|exact H2|exact Ha|exact Hb|exact Hc|exact Hd].
Defined.

(** X18. Whitespace around a text does not matter: [add_todo] and
    [edit_todo] do to the object, and return, the same for a text and for
    the text already stripped. *)
Theorem surrounding_whitespace_is_irrelevant
    (self : TodoApp) (todo_id : Z) (text now : str) :
  add_todo (strip text) now self = add_todo text now self ∧
  edit_todo todo_id (strip text) self = edit_todo todo_id text self.
Proof.
  rewrite !add_todo_run, !edit_todo_run, whitespace_only_strip.
  cbn zeta. rewrite !edit_loop_alter, !strip_idemp. done.
Qed.

(** ** Clearing as deleting, and editing twice *)

Lemma filter_agree {A : Type} (P Q : A -> Prop)
    `{!∀ x, Decision (P x), !∀ x, Decision (Q x)} (l : list A) :
  (∀ x, x ∈ l → P x ↔ Q x) → filter P l = filter Q l.
Proof.
  induction l as [|a l IH]; intros Hpq; [done|].
  assert (filter P l = filter Q l) as Hl.
  { apply IH. intros x Hx. apply Hpq. by right. }
  destruct (decide (P a)) as [Ha|Ha].
  - rewrite !filter_cons_True; [by rewrite Hl|by apply Hpq; [left|]|done].
  - rewrite !filter_cons_False; [done| |done].
    intros Hq. apply Ha, Hpq; [left|done].
Qed.

Lemma filter_all {A : Type} (P : A -> Prop) `{!∀ x, Decision (P x)} (l : list A) :
  (∀ x, P x) → filter P l = l.
Proof.
  intros Hp. induction l as [|a l IH]; [done|].
  by rewrite filter_cons_True, IH.
Qed.

Lemma run_deletes (js : list Z) (self : TodoApp) :
  run_ops (Delete <$> js) self
  = {| todos := filter (fun t => id t ∉ js) (todos self);
       next_id := next_id self |}.
Proof.
  revert self. induction js as [|j js IH]; intros self.
  - destruct self as [l n]. unfold run_ops. cbn [fmap list_fmap fold_left todos next_id].
    f_equal. symmetry. apply filter_all. intros t. apply not_elem_of_nil.
  - rewrite fmap_cons. unfold run_ops. cbn [fold_left]. fold (run_ops (Delete <$> js)).
    rewrite IH. unfold apply_op, exec. rewrite delete_todo_run.
    cbn [snd todos next_id]. f_equal. rewrite list_filter_filter.
    apply list_filter_iff. intros t. rewrite not_elem_of_cons. tauto.
Qed.

(** X19. On a store with pairwise distinct ids, [clear_completed] leaves
    the object that deleting the id of every completed record, one
    [delete_todo] after the other, leaves. *)
Theorem clear_completed_as_deletes (self : TodoApp) :
  NoDup (ids self) →
  run_ops (Delete <$> (id <$> filter (fun t => completed t = true) (todos self)))
    self
  = exec clear_completed self.
Proof.
  intros Hnd. rewrite run_deletes. unfold exec. rewrite clear_completed_run.
  cbn [snd]. f_equal. apply filter_agree. intros t Ht. split.
  - intros Hnin Hc. apply Hnin, list_elem_of_fmap_2, list_elem_of_filter.
    split; [by destruct (completed t)|done].
  - intros Hc (t' & Hid & [Hc' Ht']%list_elem_of_filter)%list_elem_of_fmap.
    assert (t = t') as <- by (by eapply same_id_same_record).
    apply Hc. by rewrite Hc'.
Qed.

Lemma clear_completed_as_deletes_sample :
  let self := exec (toggle_todo 1) sample in
  NoDup (ids self) ∧
  run_ops (Delete <$> (id <$> filter (fun t => completed t = true) (todos self)))
    self
  = exec clear_completed self.
Proof.
  cbn zeta.
  assert (NoDup (ids (exec (toggle_todo 1) sample))) as H by compute_done.
  split; [exact H|exact (clear_completed_as_deletes _ H)].
Defined.

Lemma alter_first_absorb (f g : todo -> todo) (i : Z) (l : list todo) :
  (∀ t, id (g t) = id t) → (∀ t, f (g t) = f t) →
  alter_first f i (alter_first g i l) = alter_first f i l.
Proof.
  intros Hg Hfg. induction l as [|t l IH]; [done|]. cbn [alter_first].
  case_bool_decide as Hi; cbn [alter_first].
  - rewrite bool_decide_eq_true_2 by (by rewrite Hg). by rewrite Hfg.
  - rewrite bool_decide_eq_false_2 by done. by rewrite IH.
Qed.

(** X20. The last edit wins: editing an id twice leaves the object that
    the second edit alone leaves, when the second text is not blank. *)
Theorem edit_todo_last_wins (self : TodoApp) (todo_id : Z) (x y : str) :
  whitespace_only y = false →
  exec (edit_todo todo_id y) (exec (edit_todo todo_id x) self)
  = exec (edit_todo todo_id y) self.
Proof.
  intros Hy. unfold exec. rewrite !edit_todo_run, Hy.
  destruct (whitespace_only x); cbn [snd todos next_id]; [done|].
  rewrite !edit_loop_alter. f_equal. by apply alter_first_absorb.
Qed.

Lemma edit_todo_last_wins_sample :
  whitespace_only (lit "D") = false ∧
  exec (edit_todo 2 (lit "D")) (exec (edit_todo 2 (lit "C")) sample)
  = exec (edit_todo 2 (lit "D")) sample.
Proof.
  assert (whitespace_only (lit "D") = false) as H by reflexivity.
  split; [exact H|exact (edit_todo_last_wins sample 2 (lit "C") (lit "D") H)].
Defined.
